(** * Minimum Sum Coloring: greedy construction, tabu search, graph generation

    A shallow embedding of [src/graph_generation.py], [src/greedy_msc.py] and
    [src/tabu_search_msc.py], and the properties of the specification that
    are checked against it.

    Conventions of the embedding:
    - Python's unbounded [int] is [Z];
    - a [Dict] is a [gmap], a [Set] is a [gset] (dictionary and set
      equality in Python ignore insertion order, as [=] does here);
    - [range(a, b)] is [seqZ a (b - a)];
    - a function that can raise returns an [outcome]; a [while] loop is a
      fixpoint on a fuel argument, and running out of fuel is a separate
      result that the theorems show unreachable. *)

From Stdlib Require Import ZArith Floats Ascii.
From stdpp Require Import gmap sorting list fin_maps fin_sets strings pretty.

Local Open Scope Z_scope.

(** ** Exceptions and results *)

Inductive exn : Type :=
  | KeyError (key : Z)
  | ValueError (msg : string).

Inductive outcome (A : Type) : Type :=
  | Ok (a : A)
  | Raise (e : exn)
  | OutOfFuel.
Arguments Ok {A} a.
Arguments Raise {A} e.
Arguments OutOfFuel {A}.

Global Instance outcome_bind : MBind outcome := λ A B k m,
  match m with
  | Ok a => k a
  | Raise e => Raise e
  | OutOfFuel => OutOfFuel
  end.

Global Instance outcome_ret : MRet outcome := λ A a, Ok a.

(** [d[k]] on a dictionary keyed by vertices: raises [KeyError] on a
    missing key. *)
Definition getitem {V : Type} (d : gmap Z V) (k : Z) : outcome V :=
  match d !! k with
  | Some x => Ok x
  | None => Raise (KeyError k)
  end.

(** ** graph_generation.py: the graph model *)

Record Graph : Type := mkGraph {
  n : Z;
  adj : gmap Z (gset Z);
}.

(** [Graph.neighbors]: [self.adj.get(v, set())]. *)
Definition neighbors (g : Graph) (v : Z) : gset Z :=
  default ∅ (adj g !! v).

(** [range(a, b)]. *)
Definition range (a b : Z) : list Z := seqZ a (b - a).

(** The invariants the class docstring and the data model state for a
    graph: vertices are [range(n)], adjacency is symmetric, no self-loop. *)
Record graph_wf (g : Graph) : Prop := {
  wf_in_range : ∀ v u, u ∈ neighbors g v → 0 ≤ v < n g ∧ 0 ≤ u < n g;
  wf_symmetric : ∀ v u, u ∈ neighbors g v → v ∈ neighbors g u;
  wf_irreflexive : ∀ v, v ∉ neighbors g v;
}.

(** ** Colorings *)

(** [sum(coloring.values())]. *)
Definition sum_values (coloring : gmap Z Z) : Z :=
  map_fold (λ _ c acc, acc + c) 0 coloring.

(** A coloring is total when every vertex of [range(n)] has a color. *)
Definition total_coloring (g : Graph) (coloring : gmap Z Z) : Prop :=
  ∀ v, 0 ≤ v < n g → is_Some (coloring !! v).

(** Feasibility: the two ends of every edge are colored, differently. *)
Definition feasible (g : Graph) (coloring : gmap Z Z) : Prop :=
  ∀ v u, u ∈ neighbors g v →
    ∃ cv cu, coloring !! v = Some cv ∧ coloring !! u = Some cu ∧ cv ≠ cu.

(** ** greedy_msc.py *)

Definition degree (g : Graph) (v : Z) : Z := Z.of_nat (size (neighbors g v)).

(** The sort key [(-len(graph.neighbors(v)), v)] and the order of Python
    tuples on it. *)
Definition sort_key (g : Graph) (v : Z) : Z * Z := (- degree g v, v).

Definition tuple_le (a b : Z * Z) : Prop :=
  a.1 < b.1 ∨ (a.1 = b.1 ∧ a.2 ≤ b.2).

Definition key_le (g : Graph) (u v : Z) : Prop :=
  tuple_le (sort_key g u) (sort_key g v).

Global Instance tuple_le_dec a b : Decision (tuple_le a b).
Proof. unfold tuple_le. apply _. Defined.

Global Instance key_le_dec g u v : Decision (key_le g u v).
Proof. unfold key_le. apply _. Defined.

(** [vertices = list(range(graph.n)); vertices.sort(key=...)]. *)
Definition sorted_vertices (g : Graph) : list Z :=
  merge_sort (key_le g) (range 0 (n g)).

(** [{coloring[u] for u in graph.neighbors(v) if u in coloring}]. *)
Definition forbidden_colors (g : Graph) (coloring : gmap Z Z) (v : Z) : gset Z :=
  set_omap (λ u, coloring !! u) (neighbors g v).

(** [while color in forbidden_colors: color += 1]. *)
Fixpoint first_free (fuel : nat) (forbidden : gset Z) (color : Z) : outcome Z :=
  if decide (color ∈ forbidden) then
    match fuel with
    | O => OutOfFuel
    | S fuel' => first_free fuel' forbidden (color + 1)
    end
  else Ok color.

(** The body of [for v in vertices], folded over the processing order. *)
Fixpoint color_vertices (g : Graph) (vertices : list Z) (coloring : gmap Z Z)
    : outcome (gmap Z Z) :=
  match vertices with
  | [] => Ok coloring
  | v :: rest =>
      let forbidden := forbidden_colors g coloring v in
      color ← first_free (S (size forbidden)) forbidden 1;
      color_vertices g rest (<[v := color]> coloring)
  end.

Definition greedy_msc (g : Graph) : outcome (gmap Z Z * Z) :=
  coloring ← color_vertices g (sorted_vertices g) ∅;
  Ok (coloring, sum_values coloring).

(** ** tabu_search_msc.py *)

Record TabuSearchConfig : Type := mkConfig {
  max_iterations : Z;
  tabu_tenure : Z;
  max_no_improve : Z;
}.

(** The dataclass defaults, used when [config is None]. *)
Definition default_config : TabuSearchConfig :=
  {| max_iterations := 500; tabu_tenure := 7; max_no_improve := 100 |}.

(** [_objective]. *)
Definition _objective (coloring : gmap Z Z) : Z := sum_values coloring.

(** [max(coloring.values()) if coloring else 0]. *)
Definition max_values (coloring : gmap Z Z) : Z :=
  default 0
    (map_fold (λ _ c acc, Some (from_option (Z.max c) c acc)) None coloring).

(** The local variables that live across the iterations of the [while]
    loop. *)
Record search_state : Type := mkState {
  current_coloring : gmap Z Z;
  current_value : Z;
  best_coloring : gmap Z Z;
  best_value : Z;
  tabu : gmap (Z * Z) Z;
  max_color : Z;
  iterations_without_improve : Z;
  iteration : Z;
}.

(** The state before the first iteration (lines 45 to 56). *)
Definition initial_state (initial_coloring : gmap Z Z) : search_state :=
  {| current_coloring := initial_coloring;
     current_value := _objective initial_coloring;
     best_coloring := initial_coloring;
     best_value := _objective initial_coloring;
     tabu := ∅;
     max_color := max_values initial_coloring;
     iterations_without_improve := 0;
     iteration := 0 |}.

(** [best_move] and [best_move_value] are assigned together (lines 86 and
    87) and are [None] together: one option of a move and its value. *)
Definition best_move_t : Type := option ((Z * Z) * Z).

Section tabu_search.
(** The order in which Python iterates over a set is not specified: it
    is some enumeration of the elements. *)
Context (set_iter : gset Z → list Z).

(** [any(current_coloring[u] == new_color for u in ...)]: stops at the
    first neighbor that holds [new_color]; a neighbor without a color
    raises [KeyError] when it is reached. *)
Fixpoint any_holds (coloring : gmap Z Z) (new_color : Z) (us : list Z)
    : outcome bool :=
  match us with
  | [] => Ok false
  | u :: rest =>
      c ← getitem coloring u;
      if decide (c = new_color) then Ok true
      else any_holds coloring new_color rest
  end.

(** Lines 69 to 83, for one vertex and one color: [None] when the move is
    skipped by a [continue], its resulting objective otherwise. The
    iteration counter [it] is the one already incremented at line 59. *)
Definition candidate (g : Graph) (st : search_state) (it : Z)
    (v current_color new_color : Z) : outcome (option Z) :=
  if decide (new_color = current_color) then Ok None
  else
    conflict ← any_holds (current_coloring st) new_color
                 (set_iter (neighbors g v));
    if (conflict : bool) then Ok None
    else
      let new_value := current_value st - current_color + new_color in
      let tabu_until := default (-1) (tabu st !! (v, new_color)) in
      let is_tabu := bool_decide (it ≤ tabu_until) in
      if is_tabu && bool_decide (best_value st ≤ new_value) then Ok None
      else Ok (Some new_value).

(** Lines 85 to 87. *)
Definition keep_best (best_move : best_move_t) (v new_color new_value : Z)
    : best_move_t :=
  match best_move with
  | None => Some ((v, new_color), new_value)
  | Some (_, best_move_value) =>
      if decide (new_value < best_move_value)
      then Some ((v, new_color), new_value)
      else best_move
  end.

(** [for new_color in range(1, max_color + 2)]. *)
Fixpoint scan_colors (g : Graph) (st : search_state) (it : Z)
    (v current_color : Z) (colors : list Z) (best_move : best_move_t)
    : outcome best_move_t :=
  match colors with
  | [] => Ok best_move
  | new_color :: rest =>
      r ← candidate g st it v current_color new_color;
      scan_colors g st it v current_color rest
        (match r with
         | None => best_move
         | Some new_value => keep_best best_move v new_color new_value
         end)
  end.

(** [for v in range(graph.n)]. *)
Fixpoint scan_vertices (g : Graph) (st : search_state) (it : Z)
    (vertices : list Z) (best_move : best_move_t) : outcome best_move_t :=
  match vertices with
  | [] => Ok best_move
  | v :: rest =>
      current_color ← getitem (current_coloring st) v;
      best_move' ← scan_colors g st it v current_color
                     (range 1 (max_color st + 2)) best_move;
      scan_vertices g st it rest best_move'
  end.

(** Lines 93 to 110: apply the chosen move. *)
Definition apply_move (config : TabuSearchConfig) (st : search_state)
    (it : Z) (v new_color best_move_value : Z) : outcome search_state :=
  old_color ← getitem (current_coloring st) v;
  let current_coloring' := <[v := new_color]> (current_coloring st) in
  let improves := bool_decide (best_move_value < best_value st) in
  Ok {| current_coloring := current_coloring';
        current_value := best_move_value;
        best_coloring :=
          if improves then current_coloring' else best_coloring st;
        best_value :=
          if improves then best_move_value else best_value st;
        tabu := <[(v, old_color) := it + tabu_tenure config]> (tabu st);
        max_color := Z.max (max_color st) new_color;
        iterations_without_improve :=
          if improves then 0 else iterations_without_improve st + 1;
        iteration := it |}.

(** One pass through the body of the [while] loop: [None] is the [break]
    of line 91. *)
Definition iterate (config : TabuSearchConfig) (g : Graph)
    (st : search_state) : outcome (option search_state) :=
  let it := iteration st + 1 in
  best_move ← scan_vertices g st it (range 0 (n g)) None;
  match best_move with
  | None => Ok None
  | Some ((v, new_color), best_move_value) =>
      st' ← apply_move config st it v new_color best_move_value;
      Ok (Some st')
  end.

(** The loop condition of line 58. *)
Definition loop_cond (config : TabuSearchConfig) (st : search_state) : bool :=
  bool_decide (iteration st < max_iterations config)
  && bool_decide (iterations_without_improve st < max_no_improve config).

Fixpoint tabu_loop (fuel : nat) (config : TabuSearchConfig) (g : Graph)
    (st : search_state) : outcome search_state :=
  if loop_cond config st then
    match fuel with
    | O => OutOfFuel
    | S fuel' =>
        r ← iterate config g st;
        match r with
        | None => Ok st
        | Some st' => tabu_loop fuel' config g st'
        end
    end
  else Ok st.

(** The counter [iteration] grows by one per pass and the loop stops at
    [max_iterations]: that many passes are all the loop can make. *)
Definition tabu_search_msc (g : Graph) (initial_coloring : gmap Z Z)
    (config : option TabuSearchConfig) : outcome (gmap Z Z * Z) :=
  let config := default default_config config in
  st ← tabu_loop (Z.to_nat (max_iterations config)) config g
         (initial_state initial_coloring);
  Ok (best_coloring st, best_value st).

(** One transition of a run: the loop condition holds and the pass ends
    by applying a move. *)
Definition step (config : TabuSearchConfig) (g : Graph)
    (st st' : search_state) : Prop :=
  loop_cond config st = true ∧ iterate config g st = Ok (Some st').

(** A selected move is one that [candidate] let through, at the color
    its vertex holds in the current coloring. *)
Definition chosen (g : Graph) (st : search_state) (it : Z)
    (best_move : best_move_t) : Prop :=
  match best_move with
  | None => True
  | Some ((v, new_color), new_value) =>
      ∃ current_color,
        current_coloring st !! v = Some current_color
        ∧ candidate g st it v current_color new_color = Ok (Some new_value)
  end.

End tabu_search.

(** ** graph_generation.py: random graphs *)

(** [random.Random] is Python's library, not this repository's: a
    generator is a state, [Random(seed)] builds it from an integer seed,
    and [random()] draws a float and moves the state on. *)
Class RandomSource : Type := {
  rng_state : Type;
  Random : Z → rng_state;
  random : rng_state → float * rng_state;
}.

Section graph_generation.
Context `{RandomSource}.

(** [0.0 <= p <= 1.0] on floats (false when [p] is NaN). *)
Definition in_unit_interval (p : float) : bool :=
  PrimFloat.leb 0 p && PrimFloat.leb p 1.

(** [adj[u].add(v)]. *)
Definition add_neighbor (adj : gmap Z (gset Z)) (u v : Z)
    : outcome (gmap Z (gset Z)) :=
  s ← getitem adj u;
  Ok (<[u := s ∪ {[v]}]> adj).

(** [for v in range(u + 1, n)], on the pair (adjacency, generator). *)
Fixpoint draw_edges (p : float) (u : Z) (vs : list Z)
    (adj : gmap Z (gset Z)) (rng : rng_state)
    : outcome (gmap Z (gset Z) * rng_state) :=
  match vs with
  | [] => Ok (adj, rng)
  | v :: rest =>
      let '(x, rng') := random rng in
      if PrimFloat.ltb x p then
        adj1 ← add_neighbor adj u v;
        adj2 ← add_neighbor adj1 v u;
        draw_edges p u rest adj2 rng'
      else draw_edges p u rest adj rng'
  end.

(** [for u in range(n)]. *)
Fixpoint draw_rows (p : float) (n : Z) (us : list Z)
    (adj : gmap Z (gset Z)) (rng : rng_state)
    : outcome (gmap Z (gset Z) * rng_state) :=
  match us with
  | [] => Ok (adj, rng)
  | u :: rest =>
      '(adj', rng') ← draw_edges p u (range (u + 1) n) adj rng;
      draw_rows p n rest adj' rng'
  end.

(** [{v: set() for v in range(n)}]. *)
Definition empty_adjacency (n : Z) : gmap Z (gset Z) :=
  list_to_map ((λ v, (v, ∅)) <$> range 0 n).

(** [entropy] is the state that [random.Random(None)] takes from the
    operating system: it is read only when no seed is given. *)
Definition generate_erdos_renyi_graph (entropy : rng_state)
    (n : Z) (p : float) (seed : option Z) : outcome Graph :=
  if negb (in_unit_interval p) then Raise (ValueError "p must be in [0, 1]")
  else
    let rng := from_option Random entropy seed in
    '(adj, _) ← draw_rows p n (range 0 n) (empty_adjacency n) rng;
    Ok {| n := n; adj := adj |}.

(** The list comprehension of the last line: one call per seed, in
    order; the [k]-th call without a seed reads [entropy k]. *)
Fixpoint generate_each (entropy : nat → rng_state) (n : Z) (p : float)
    (k : nat) (seeds : list (option Z)) : outcome (list Graph) :=
  match seeds with
  | [] => Ok []
  | s :: rest =>
      g ← generate_erdos_renyi_graph (entropy k) n p s;
      gs ← generate_each entropy n p (S k) rest;
      Ok (g :: gs)
  end.

Definition generate_random_graphs (entropy : nat → rng_state)
    (count n : Z) (p : float) (base_seed : option Z)
    : outcome (list Graph) :=
  let seeds :=
    match base_seed with
    | None => replicate (Z.to_nat count) None
    | Some b => (λ i, Some (b + i)) <$> range 0 count
    end in
  generate_each entropy n p 0 seeds.

End graph_generation.

(** ** main.py: the experiment *)

(** [evaluation.ExperimentResult]. *)
Record ExperimentResult : Type := mkResult {
  index : Z;
  greedy_sum : Z;
  tabu_sum : Z;
  greedy_time : float;
  tabu_time : float;
  greedy_colors : option Z;
  tabu_colors : option Z;
}.

Section run_experiment.
(** [perf_counter k] is the value of the call number [k] (from 0) of
    [time.perf_counter]; the loop makes four calls per graph. The calls of
    [print] are left out: they do not change what is computed. *)
Context (set_iter : gset Z → list Z) `{RandomSource} (perf_counter : nat → float).

(** [for idx, g in enumerate(graphs)], on the list [results] and on the
    pair [example_graph], [example_coloring] (set together, once). *)
Fixpoint experiment_loop (idx : nat) (graphs : list Graph)
    (results : list ExperimentResult) (example : option (Graph * gmap Z Z))
    : outcome (list ExperimentResult * option (Graph * gmap Z Z)) :=
  match graphs with
  | [] => Ok (results, example)
  | g :: rest =>
      let t0 := perf_counter (4 * idx)%nat in
      '(greedy_coloring, greedy_sum) ← greedy_msc g;
      let t1 := perf_counter (4 * idx + 1)%nat in
      let greedy_time := PrimFloat.sub t1 t0 in
      let greedy_colors := max_values greedy_coloring in
      let t2 := perf_counter (4 * idx + 2)%nat in
      '(best_coloring, best_sum) ←
        tabu_search_msc set_iter g greedy_coloring (Some default_config);
      let t3 := perf_counter (4 * idx + 3)%nat in
      let tabu_time := PrimFloat.sub t3 t2 in
      let tabu_colors := max_values best_coloring in
      let result :=
        {| index := Z.of_nat idx + 1;
           greedy_sum := greedy_sum;
           tabu_sum := best_sum;
           greedy_time := greedy_time;
           tabu_time := tabu_time;
           greedy_colors := Some greedy_colors;
           tabu_colors := Some tabu_colors |} in
      experiment_loop (S idx) rest (results ++ [result])
        (match example with
         | None => Some (g, best_coloring)
         | Some _ => example
         end)
  end.

(** [run_experiment], as far as the call of [save_experiment_artifacts]:
    the result is what that call receives. *)
Definition run_experiment (entropy : nat → rng_state)
    (num_graphs n : Z) (p : float) (base_seed : option Z)
    : outcome (list ExperimentResult * option (Graph * gmap Z Z)) :=
  graphs ← generate_random_graphs entropy num_graphs n p base_seed;
  experiment_loop 0 graphs [] None.

End run_experiment.

(** ** evaluation.py: what is drawn and what is written *)

Section plot_example_graph.
Context (set_iter : gset Z → list Z).

(** [nodes = list(range(min(graph.n, 40)))]. *)
Definition plot_nodes (g : Graph) : list Z := range 0 (Z.min (n g) 40).

(** The calls [G.add_edge(u, v)] of [_plot_example_graph], in order. *)
Definition plot_edges (g : Graph) : list (Z * Z) :=
  u ← plot_nodes g;
  (λ v, (u, v))
    <$> filter (λ v, v ∈ plot_nodes g ∧ u < v) (set_iter (neighbors g u)).

(** [[coloring.get(v, 0) for v in G.nodes]]: the nodes of [G] are the
    entries of [nodes], in that order. *)
Definition plot_node_colors (g : Graph) (coloring : gmap Z Z) : list Z :=
  (λ v, default 0 (coloring !! v)) <$> plot_nodes g.

End plot_example_graph.

(** The string functions of Python that the CSV code calls: the format
    [:.6f], [str.strip], [int] and [float] on a string ([None] when they
    raise [ValueError]). *)
Class PythonText : Type := {
  format_6f : float → string;
  str_strip : string → string;
  int_of_str : string → option Z;
  float_of_str : string → option float;
}.

Section metrics_csv.
Context `{PythonText}.

(** The header as the source has it: it ends with a backslash and an
    [n] (the literal is ["...\\n"]), not with a line feed. *)
Definition csv_header : string :=
  "index,greedy_sum,tabu_sum,greedy_colors,tabu_colors,greedy_time,tabu_time\n".

(** The f-string of line 137; [x or 0] is [default 0 x]. *)
Definition csv_row (r : ExperimentResult) : string :=
  pretty (index r) +:+ "," +:+ pretty (greedy_sum r) +:+ ","
  +:+ pretty (tabu_sum r) +:+ "," +:+ pretty (default 0 (greedy_colors r))
  +:+ "," +:+ pretty (default 0 (tabu_colors r)) +:+ ","
  +:+ format_6f (greedy_time r) +:+ "," +:+ format_6f (tabu_time r) +:+ "\n".

(** All that the calls of [f.write] put into the file. *)
Definition csv_content (results : list ExperimentResult) : string :=
  csv_header +:+ String.concat "" (csv_row <$> results).

(** Step 1 of [save_experiment_artifacts], on the content of
    [metrics.csv] ([None]: no such file): nothing is written for an empty
    list of results, or when opening the file raises [PermissionError]. *)
Definition write_metrics_csv (writable : bool)
    (results : list ExperimentResult) (file : option string) : option string :=
  match results with
  | [] => file
  | _ => if writable then Some (csv_content results) else file
  end.

(** The lines that reading a text file yields: a line ends after a line
    feed, a carriage return or the two in a row, each read as one line
    feed. *)
Fixpoint text_lines (s : string) : list string :=
  match s with
  | EmptyString => []
  | String c rest =>
      if decide (c = "010"%char) then String "010" "" :: text_lines rest
      else if decide (c = "013"%char) then
        String "010" ""
        :: match rest with
           | String c' rest' =>
               if decide (c' = "010"%char) then text_lines rest'
               else text_lines rest
           | EmptyString => []
           end
      else
        match text_lines rest with
        | [] => [String c ""]
        | line :: lines => String c line :: lines
        end
  end.

(** [line.split(",")]. *)
Fixpoint split_commas (s : string) : list string :=
  match s with
  | EmptyString => [""]
  | String c rest =>
      if decide (c = ","%char) then "" :: split_commas rest
      else
        match split_commas rest with
        | [] => [String c ""]
        | part :: parts => String c part :: parts
        end
  end.

(** The body of the loop of [load_metrics] from [parts] on: [None] when
    the unpacking or a conversion raises [ValueError]. *)
Definition parse_parts (parts : list string) : option ExperimentResult :=
  '(index_s, greedy_s, tabu_s, greedy_colors_s, tabu_colors_s,
    greedy_t, tabu_t) ←
    match parts with
    | [a; b; c; d; e] => Some (a, b, c, "0", "0", d, e)
    | [a; b; c; d; e; f; g] => Some (a, b, c, d, e, f, g)
    | _ => None
    end;
  index ← int_of_str index_s;
  greedy_sum ← int_of_str greedy_s;
  tabu_sum ← int_of_str tabu_s;
  greedy_time ← float_of_str greedy_t;
  tabu_time ← float_of_str tabu_t;
  greedy_colors ← int_of_str greedy_colors_s;
  tabu_colors ← int_of_str tabu_colors_s;
  Some {| index := index; greedy_sum := greedy_sum; tabu_sum := tabu_sum;
          greedy_time := greedy_time; tabu_time := tabu_time;
          greedy_colors := Some greedy_colors;
          tabu_colors := Some tabu_colors |}.

(** [for line in f]. *)
Fixpoint parse_lines (lines : list string) : option (list ExperimentResult) :=
  match lines with
  | [] => Some []
  | line :: rest =>
      let line := str_strip line in
      if decide (line = "") then parse_lines rest
      else
        r ← parse_parts (split_commas line);
        results ← parse_lines rest;
        Some (r :: results)
  end.

(** [load_metrics] of web/app.py on the content of [metrics.csv]: the
    first line is read as the header and dropped. [None] stands for a
    [ValueError]. *)
Definition load_metrics (file : option string)
    : option (list ExperimentResult) :=
  match file with
  | None => Some []
  | Some content => parse_lines (tail (text_lines content))
  end.

(** No line feed and no carriage return in a string. *)
Fixpoint no_line_break (s : string) : bool :=
  match s with
  | EmptyString => true
  | String c rest =>
      negb (bool_decide (c = "010"%char)) && negb (bool_decide (c = "013"%char))
      && no_line_break rest
  end.

End metrics_csv.

(** ** The draws behind a generated graph *)

Section graph_generation_draws.
Context `{RandomSource}.

(** The pairs [(u, v)] in the order in which the two loops of
    [generate_erdos_renyi_graph] visit them. *)
Definition vertex_pairs (n : Z) : list (Z * Z) :=
  u ← range 0 n; (λ v, (u, v)) <$> range (u + 1) n.

(** The value of the call of [random()] number [k] (from 0) on a
    generator. *)
Fixpoint nth_draw (k : nat) (rng : rng_state) : float :=
  match k with
  | O => (random rng).1
  | S k' => nth_draw k' (random rng).2
  end.

(** The two loops as one loop over a list of pairs. *)
Fixpoint draw_pairs (p : float) (pairs : list (Z * Z))
    (adj : gmap Z (gset Z)) (rng : rng_state)
    : outcome (gmap Z (gset Z) * rng_state) :=
  match pairs with
  | [] => Ok (adj, rng)
  | (u, v) :: rest =>
      let '(x, rng') := random rng in
      if PrimFloat.ltb x p then
        adj1 ← add_neighbor adj u v;
        adj2 ← add_neighbor adj1 v u;
        draw_pairs p rest adj2 rng'
      else draw_pairs p rest adj rng'
  end.

End graph_generation_draws.

(** Every color of a coloring is a positive integer. *)
Definition positive_colors (coloring : gmap Z Z) : Prop :=
  ∀ v c, coloring !! v = Some c → 1 ≤ c.

Definition positive_colorsb (coloring : gmap Z Z) : bool :=
  bool_decide (map_Forall (λ _ c, 1 ≤ c) coloring).

(** A result is a [KeyError] for a key that the coloring does not have. *)
Definition raises_missing {A : Type} (coloring : gmap Z Z) (r : outcome A)
    : Prop :=
  ∃ key, r = Raise (KeyError key) ∧ coloring !! key = None.

(** The invariant behind the fresh color [max_color + 1]: no vertex holds
    a color above [max_color], no tabu record is about one, and
    [max_color] is positive. *)
Definition max_color_ok (st : search_state) : Prop :=
  (∀ v c, current_coloring st !! v = Some c → c ≤ max_color st)
  ∧ (∀ v c until, tabu st !! (v, c) = Some until → c ≤ max_color st)
  ∧ 0 ≤ iteration st.

(** ** The selection rule of a pass *)

(** The moves that a pass enumerates. *)
Definition enumerated (g : Graph) (st : search_state) (move : Z * Z) : Prop :=
  (0 ≤ move.1 < n g) ∧ (1 ≤ move.2 ≤ max_color st + 1).

Section selection.
Context (set_iter : gset Z → list Z) (g : Graph) (st : search_state) (it : Z).

(** The move [(v, new_color)] is let through by [candidate], with
    resulting objective [new_value], at the color that [v] holds. *)
Definition passes (move : Z * Z) (new_value : Z) : Prop :=
  ∃ current_color,
    current_coloring st !! move.1 = Some current_color
    ∧ candidate set_iter g st it move.1 current_color move.2
      = Ok (Some new_value).

(** [best_move] is the best of the moves seen so far: of the least
    resulting objective and, among those, the first in the order of the
    enumeration (vertex, then color). *)
Definition first_best (seen : Z * Z → Prop) (best_move : best_move_t) : Prop :=
  match best_move with
  | None => ∀ move new_value, seen move → ¬ passes move new_value
  | Some (move, new_value) =>
      seen move ∧ passes move new_value
      ∧ ∀ move' new_value', seen move' → passes move' new_value' →
          new_value ≤ new_value'
          ∧ (new_value' = new_value → tuple_le move move')
  end.

End selection.

(** ** Specification-level notions and decidable checks *)

(** What the greedy pass decides for vertex [v] when the vertices of
    [earlier] were colored before it: the least positive color that no
    neighbor among [earlier] holds in [coloring]. *)
Definition least_free_color (g : Graph) (coloring : gmap Z Z)
    (earlier : list Z) (v c : Z) : Prop :=
  1 ≤ c
  ∧ (∀ u, u ∈ neighbors g v → u ∈ earlier → coloring !! u ≠ Some c)
  ∧ (∀ c', 1 ≤ c' < c →
       ∃ u, u ∈ neighbors g v ∧ u ∈ earlier ∧ coloring !! u = Some c').

(** The running objective is the sum of the current coloring, and the
    incumbent's value the sum of the incumbent. *)
Definition sums_agree (st : search_state) : Prop :=
  current_value st = sum_values (current_coloring st)
  ∧ best_value st = sum_values (best_coloring st).

(** The invariant of the two loops of the generator, on the adjacency
    under construction. *)
Definition adjacency_ok (n : Z) (adj : gmap Z (gset Z)) : Prop :=
  ∀ w x, x ∈ default ∅ (adj !! w) →
    (0 ≤ w < n) ∧ (0 ≤ x < n) ∧ x ≠ w ∧ w ∈ default ∅ (adj !! x).

(** Boolean versions of the invariants, for concrete graphs. *)
Definition graph_wfb (g : Graph) : bool :=
  bool_decide
    (map_Forall
       (λ v (s : gset Z),
          set_Forall
            (λ u, (0 ≤ v < n g) ∧ (0 ≤ u < n g) ∧ v ∈ neighbors g u ∧ u ≠ v) s)
       (adj g)).

Definition total_coloringb (g : Graph) (coloring : gmap Z Z) : bool :=
  bool_decide (Forall (λ v, is_Some (coloring !! v)) (range 0 (n g))).

Definition differ (coloring : gmap Z Z) (v u : Z) : bool :=
  match coloring !! v, coloring !! u with
  | Some cv, Some cu => bool_decide (cv ≠ cu)
  | _, _ => false
  end.

Definition feasibleb (g : Graph) (coloring : gmap Z Z) : bool :=
  bool_decide
    (map_Forall
       (λ v (s : gset Z), set_Forall (λ u, differ coloring v u = true) s)
       (adj g)).

(** The state after [k] passes of the loop body (a pass that stops the run
    leaves the state as it is). *)
Fixpoint after_passes (set_iter : gset Z → list Z) (config : TabuSearchConfig)
    (g : Graph) (k : nat) (st : search_state) : search_state :=
  match k with
  | O => st
  | S k' =>
      match iterate set_iter config g st with
      | Ok (Some st') => after_passes set_iter config g k' st'
      | _ => st
      end
  end.

(** ** Concrete inputs *)

(** The path 0 - 1 - 2 - 3. *)
Definition path4 : Graph :=
  {| n := 4;
     adj := list_to_map [(0, {[1]}); (1, {[0; 2]}); (2, {[1; 3]}); (3, {[2]})] |}.

Definition rising_coloring : gmap Z Z :=
  list_to_map [(0, 1); (1, 2); (2, 3); (3, 4)].

(** A configuration whose loop is never entered. *)
Definition no_iterations : TabuSearchConfig :=
  {| max_iterations := 0; tabu_tenure := 7; max_no_improve := 100 |}.

(** Ten vertices, no edge. *)
Definition empty10 : Graph := {| n := 10; adj := ∅ |}.

(** [{v: 1 for v in range(10)}]. *)
Definition all_ones : gmap Z Z := list_to_map ((λ v, (v, 1)) <$> range 0 10).

(** String functions for concrete runs: every float is printed as zero,
    nothing is stripped, and only ["0"] and ["1"] are read as numbers. *)
Definition plain_text : PythonText :=
  {| format_6f := λ _, "0.000000";
     str_strip := λ s, s;
     int_of_str := λ s,
       if decide (s = "0") then Some 0
       else if decide (s = "1") then Some 1 else None;
     float_of_str := λ s,
       if decide (s = "0.000000") then Some 0%float else None |}.

(** One row of results. *)
Definition one_result : ExperimentResult :=
  {| index := 1; greedy_sum := 6; tabu_sum := 6;
     greedy_time := 0%float; tabu_time := 0%float;
     greedy_colors := Some 2; tabu_colors := Some 2 |}.

(** The path 0 - 1 - 2, as [alternating_source] generates it. *)
Definition path3 : Graph :=
  {| n := 3; adj := list_to_map [(0, {[1]}); (1, {[0; 2]}); (2, {[1]})] |}.

(** A coloring of the path that leaves vertex 3 without a color. *)
Definition partial_coloring : gmap Z Z := list_to_map [(0, 1); (1, 2); (2, 3)].

(** The result of the tabu search on the path, from [rising_coloring]. *)
Definition path4_result : gmap Z Z :=
  list_to_map [(0, 2); (1, 1); (2, 2); (3, 1)].

(** A graph without vertices. *)
Definition empty0 : Graph := {| n := 0; adj := ∅ |}.

(** A generator for concrete runs: the draws alternate between 0.25 and
    0.75. *)
Definition alternating_source : RandomSource :=
  {| rng_state := nat;
     Random := λ seed, Z.to_nat (Z.abs seed);
     random := λ k, (if Nat.even k then 0.25%float else 0.75%float, S k) |}.

(** * Properties *)

(** ** Generic facts: results, ranges, sums *)

Lemma bind_Ok {A B : Type} (m : outcome A) (k : A → outcome B) (b : B) :
  (x ← m; k x) = Ok b ↔ ∃ a, m = Ok a ∧ k a = Ok b.
Proof.
  destruct m as [a|e|]; simpl; split.
  - intros Hk. by exists a.
  - by intros (a' & [= <-] & Hk).
  - done.
  - by intros (a' & [=] & _).
  - done.
  - by intros (a' & [=] & _).
Qed.

Lemma getitem_Ok {V : Type} (d : gmap Z V) (k : Z) (x : V) :
  getitem d k = Ok x ↔ d !! k = Some x.
Proof. unfold getitem. destruct (d !! k); naive_solver. Qed.

Lemma elem_of_range (a b x : Z) : x ∈ range a b ↔ a ≤ x < b.
Proof. unfold range. rewrite elem_of_seqZ. lia. Qed.

Lemma NoDup_range (a b : Z) : NoDup (range a b).
Proof. apply NoDup_seqZ. Qed.

Lemma sum_values_empty : sum_values ∅ = 0.
Proof. unfold sum_values. apply map_fold_empty. Qed.

Lemma sum_values_insert_fresh (m : gmap Z Z) (k c : Z) :
  m !! k = None → sum_values (<[k := c]> m) = sum_values m + c.
Proof.
  intros Hk. unfold sum_values.
  rewrite map_fold_insert_L; [done| |done].
  intros; lia.
Qed.

(** Overwriting a value moves the sum by the difference: the delta that
    the tabu search applies to its running objective. *)
Lemma sum_values_insert (m : gmap Z Z) (k old c : Z) :
  m !! k = Some old → sum_values (<[k := c]> m) = sum_values m - old + c.
Proof.
  intros Hk.
  rewrite <- (insert_delete_eq m k c).
  rewrite sum_values_insert_fresh by apply lookup_delete_eq.
  rewrite <- (insert_id m k old) at 2 by done.
  rewrite <- (insert_delete_eq m k old).
  rewrite (sum_values_insert_fresh _ k old) by apply lookup_delete_eq.
  lia.
Qed.

(** ** The greedy constructor *)

Global Instance key_le_total (g : Graph) : Total (key_le g).
Proof. intros u v. unfold key_le, tuple_le, sort_key; simpl. lia. Qed.

Global Instance key_le_trans (g : Graph) : Transitive (key_le g).
Proof. intros u v w. unfold key_le, tuple_le, sort_key; simpl. lia. Qed.

Global Instance key_le_antisymm (g : Graph) : AntiSymm (=) (key_le g).
Proof. intros u v. unfold key_le, tuple_le, sort_key; simpl. lia. Qed.

Lemma sorted_vertices_perm (g : Graph) : sorted_vertices g ≡ₚ range 0 (n g).
Proof. apply merge_sort_Permutation. Qed.

Lemma sorted_vertices_sorted (g : Graph) :
  StronglySorted (key_le g) (sorted_vertices g).
Proof. apply StronglySorted_merge_sort; apply _. Qed.

Lemma sorted_vertices_NoDup (g : Graph) : NoDup (sorted_vertices g).
Proof. rewrite sorted_vertices_perm. apply NoDup_range. Qed.

(** Python's [sort] is another sorting algorithm than [merge_sort]; the
    keys are pairwise different, so there is one sorted arrangement of
    [range(n)] and every correct sort returns it. *)
Lemma sorted_vertices_unique (g : Graph) (l : list Z) :
  l ≡ₚ range 0 (n g) → StronglySorted (key_le g) l → l = sorted_vertices g.
Proof.
  intros Hp Hs. apply (StronglySorted_unique (key_le g)); [done| |].
  - apply sorted_vertices_sorted.
  - by rewrite Hp, sorted_vertices_perm.
Qed.

(** The [while] loop stops on the least color from [color] on that is not
    forbidden, as soon as the fuel exceeds the number of forbidden colors
    that are at least [color]. *)
Lemma first_free_spec (fuel : nat) (forbidden : gset Z) (color : Z) :
  (size (filter (λ x : Z, (color ≤ x)%Z) forbidden) < fuel)%nat →
  ∃ c, first_free fuel forbidden color = Ok c ∧ (color ≤ c)
       ∧ (c ∉ forbidden) ∧ (∀ x, color ≤ x < c → x ∈ forbidden).
Proof.
  revert color. induction fuel as [|fuel IH]; intros color Hsz; [lia|].
  simpl. destruct (decide (color ∈ forbidden)) as [Hin|Hout].
  - destruct (IH (color + 1)) as (c & Hc & Hle & Hnot & Hall).
    + assert (filter (λ x, color + 1 ≤ x) forbidden
              ⊂ filter (λ x, color ≤ x) forbidden) as Hsub.
      { split.
        - intros x. rewrite !elem_of_filter. intros [? ?]. split; [lia|done].
        - intros Hsub. specialize (Hsub color).
          rewrite !elem_of_filter in Hsub.
          destruct Hsub as [? _]; [split; [lia|done]|lia]. }
      apply subset_size in Hsub. lia.
    + exists c. repeat split; [done|lia|done|].
      intros x Hx. destruct (decide (x = color)) as [->|]; [done|].
      apply Hall. lia.
  - exists color. repeat split; [lia|done|]. intros x Hx. lia.
Qed.

Lemma first_free_enough (forbidden : gset Z) :
  ∃ c, first_free (S (size forbidden)) forbidden 1 = Ok c ∧ (1 ≤ c)
       ∧ (c ∉ forbidden) ∧ (∀ x, 1 ≤ x < c → x ∈ forbidden).
Proof.
  apply first_free_spec.
  assert (filter (λ x, 1 ≤ x) forbidden ⊆ forbidden) as Hsub.
  { intros x. rewrite elem_of_filter. tauto. }
  apply subseteq_size in Hsub. lia.
Qed.

Lemma color_vertices_spec (g : Graph) (vertices done : list Z)
    (coloring : gmap Z Z) :
  NoDup (done ++ vertices) →
  dom coloring = list_to_set done →
  ∃ coloring',
    color_vertices g vertices coloring = Ok coloring'
    ∧ dom coloring' = list_to_set (done ++ vertices)
    ∧ (∀ u, u ∈ done → coloring' !! u = coloring !! u)
    ∧ sum_values coloring' - sum_values coloring
      = foldr Z.add 0 (omap (λ v, coloring' !! v) vertices)
    ∧ (∀ pre v post, vertices = pre ++ v :: post →
         ∃ c, coloring' !! v = Some c
              ∧ least_free_color g coloring' (done ++ pre) v c).
Proof.
  revert done coloring.
  induction vertices as [|v rest IH]; intros done coloring Hnd Hdom.
  { exists coloring. simpl. rewrite app_nil_r.
    repeat split; [done|lia|]. by intros [|??] ?? ?. }
  cbn [color_vertices].
  destruct (first_free_enough (forbidden_colors g coloring v))
    as (c & -> & Hpos & Hfree & Hleast). cbn [mbind outcome_bind].
  assert (v ∉ done) as Hv.
  { apply NoDup_app in Hnd as (_ & Hnd & _). intros Hin.
    apply (Hnd v Hin). left. }
  assert (coloring !! v = None) as Hvnone.
  { apply not_elem_of_dom. rewrite Hdom. by rewrite elem_of_list_to_set. }
  destruct (IH (done ++ [v]) (<[v := c]> coloring))
    as (coloring' & Hrun & Hdom' & Hkeep & Hsum & Hspec).
  { by rewrite <- app_assoc. }
  { rewrite dom_insert_L, Hdom, list_to_set_app_L. simpl.
    rewrite (right_id_L ∅ (∪)). apply (comm_L (∪)). }
  assert (∀ u, u ∈ done → coloring' !! u = coloring !! u) as Hkeep'.
  { intros u Hu. rewrite Hkeep by (apply elem_of_app; by left).
    apply lookup_insert_ne. by intros ->. }
  assert (coloring' !! v = Some c) as Hvc.
  { rewrite Hkeep by (apply elem_of_app; right; left).
    apply lookup_insert_eq. }
  exists coloring'. split; [done|]. split; [by rewrite <- app_assoc in Hdom'|].
  split; [done|]. split.
  { cbn [omap list_omap]. rewrite Hvc. cbn [foldr]. rewrite <- Hsum.
    rewrite sum_values_insert_fresh by done. lia. }
  intros pre x post Heq. destruct pre as [|y pre]; simplify_eq/=.
  - exists c. split; [done|]. rewrite app_nil_r. split; [done|]. split.
    + intros u Hu Hdone Hc. rewrite Hkeep' in Hc by done.
      apply Hfree. apply elem_of_set_omap. by exists u.
    + intros c' Hc'. apply Hleast, elem_of_set_omap in Hc' as (u & Hu & Hcu).
      exists u. split; [done|].
      assert (u ∈ done) as Hd.
      { apply (elem_of_list_to_set (C:=gset Z)). rewrite <- Hdom.
        apply elem_of_dom. by eexists. }
      split; [done|]. by rewrite Hkeep'.
  - destruct (Hspec pre x post eq_refl) as (cx & Hcx & Hl).
    exists cx. split; [done|]. by rewrite <- app_assoc in Hl.
Qed.

Lemma StronglySorted_lookup_lt {A : Type} (R : relation A) (l : list A)
    (i j : nat) (x y : A) :
  StronglySorted R l → l !! i = Some x → l !! j = Some y → (i < j)%nat → R x y.
Proof.
  intros Hs. revert i j. induction Hs as [|a l Hs IH Hall]; intros i j Hi Hj Hlt.
  { by rewrite lookup_nil in Hi. }
  destruct j as [|j]; [lia|]. destruct i as [|i]; simpl in *.
  - simplify_eq. by apply (proj1 (Forall_lookup _ _) Hall j y).
  - apply (IH i j); [done|done|lia].
Qed.

Lemma StronglySorted_weaken {A : Type} (R R' : relation A) (l : list A) :
  (∀ x y, R x y → R' x y) → StronglySorted R l → StronglySorted R' l.
Proof.
  intros HR. induction 1 as [|a l _ IH Hall]; constructor; [done|].
  eapply Forall_impl; [exact Hall|]. intros y. apply HR.
Qed.

(** Of two different members of a list, one comes before the other. *)
Lemma one_comes_first {A : Type} (l : list A) (u v : A) :
  u ∈ l → v ∈ l → u ≠ v →
  ∃ pre x post, l = pre ++ x :: post
                ∧ ((x = v ∧ u ∈ pre) ∨ (x = u ∧ v ∈ pre)).
Proof.
  intros Hu Hv Hne.
  apply list_elem_of_split in Hv as (l1 & l2 & ->).
  apply elem_of_app in Hu as [Hu|Hu].
  - exists l1, v, l2. split; [done|]. by left.
  - apply elem_of_cons in Hu as [->|Hu]; [done|].
    apply list_elem_of_split in Hu as (l3 & l4 & ->).
    exists (l1 ++ v :: l3), u, l4. split.
    + by rewrite <- app_assoc.
    + right. split; [done|]. apply elem_of_app. right. left.
Qed.

Lemma sum_colors_perm (coloring : gmap Z Z) (l1 l2 : list Z) :
  l1 ≡ₚ l2 →
  foldr Z.add 0 (omap (λ v, coloring !! v) l1)
  = foldr Z.add 0 (omap (λ v, coloring !! v) l2).
Proof.
  induction 1 as [|x l1 l2 _ IH|x y l|l1 l2 l3 _ IH1 _ IH2].
  - done.
  - cbn [omap list_omap]. destruct (coloring !! x); simpl; by rewrite IH.
  - cbn [omap list_omap].
    destruct (coloring !! x), (coloring !! y); simpl; lia.
  - by rewrite IH1.
Qed.

(** The greedy constructor always returns; its result is described by the
    processing order. *)
Lemma greedy_msc_spec (g : Graph) :
  ∃ coloring,
    greedy_msc g = Ok (coloring, sum_values coloring)
    ∧ dom coloring = list_to_set (range 0 (n g))
    ∧ sum_values coloring
      = foldr Z.add 0 (omap (λ v, coloring !! v) (range 0 (n g)))
    ∧ (∀ pre v post, sorted_vertices g = pre ++ v :: post →
         ∃ c, coloring !! v = Some c ∧ least_free_color g coloring pre v c).
Proof.
  destruct (color_vertices_spec g (sorted_vertices g) [] ∅)
    as (coloring & Hrun & Hdom & _ & Hsum & Hspec).
  { apply sorted_vertices_NoDup. }
  { by rewrite dom_empty_L. }
  exists coloring. unfold greedy_msc. rewrite Hrun. split; [done|].
  split; [|split; [|done]].
  - simpl in Hdom. rewrite Hdom. apply set_eq. intros x.
    by rewrite !elem_of_list_to_set, sorted_vertices_perm.
  - rewrite sum_values_empty in Hsum.
    rewrite <- (sum_colors_perm coloring _ _ (sorted_vertices_perm g)). lia.
Qed.

Lemma greedy_msc_feasible (g : Graph) :
  graph_wf g →
  ∃ coloring total,
    greedy_msc g = Ok (coloring, total)
    ∧ total_coloring g coloring ∧ feasible g coloring.
Proof.
  intros Hwf. destruct (greedy_msc_spec g) as (coloring & Hrun & Hdom & _ & Hspec).
  assert (∀ v, 0 ≤ v < n g → is_Some (coloring !! v)) as Htotal.
  { intros v Hv. apply elem_of_dom. rewrite Hdom, elem_of_list_to_set.
    by apply elem_of_range. }
  exists coloring, (sum_values coloring). split; [done|]. split; [done|].
  intros v u Hedge.
  destruct (wf_in_range g Hwf v u Hedge) as [Hv Hu].
  destruct (Htotal v Hv) as [cv Hcv]. destruct (Htotal u Hu) as [cu Hcu].
  exists cv, cu. split; [done|]. split; [done|]. intros ->.
  assert (u ≠ v) as Hne.
  { intros ->. by apply (wf_irreflexive g Hwf v). }
  destruct (one_comes_first (sorted_vertices g) u v)
    as (pre & x & post & Hsplit & [[-> Hpre]|[-> Hpre]]).
  - rewrite sorted_vertices_perm. by apply elem_of_range.
  - rewrite sorted_vertices_perm. by apply elem_of_range.
  - done.
  - destruct (Hspec pre v post Hsplit) as (c & Hc & _ & Hfree & _).
    simplify_eq. by apply (Hfree u).
  - destruct (Hspec pre u post Hsplit) as (c & Hc & _ & Hfree & _).
    simplify_eq. apply (Hfree v); [|done..].
    by apply (wf_symmetric g Hwf).
Qed.

(** The greedy constructor reads a graph through [n] and [neighbors] only. *)
Lemma sorted_vertices_ext (g1 g2 : Graph) :
  n g1 = n g2 → (∀ v, neighbors g1 v = neighbors g2 v) →
  sorted_vertices g1 = sorted_vertices g2.
Proof.
  intros Hn Hnb. symmetry. apply sorted_vertices_unique.
  - rewrite Hn. apply sorted_vertices_perm.
  - eapply StronglySorted_weaken; [|apply sorted_vertices_sorted].
    intros u v. unfold key_le, sort_key, degree. by rewrite !Hnb.
Qed.

Lemma color_vertices_ext (g1 g2 : Graph) (vertices : list Z)
    (coloring : gmap Z Z) :
  (∀ v, neighbors g1 v = neighbors g2 v) →
  color_vertices g1 vertices coloring = color_vertices g2 vertices coloring.
Proof.
  intros Hnb. revert coloring. induction vertices as [|v rest IH]; [done|].
  intros coloring. cbn [color_vertices]. unfold forbidden_colors.
  rewrite Hnb. destruct (first_free _ _ _); simpl; [apply IH|done..].
Qed.

Lemma greedy_msc_ext (g1 g2 : Graph) :
  n g1 = n g2 → (∀ v, neighbors g1 v = neighbors g2 v) →
  greedy_msc g1 = greedy_msc g2.
Proof.
  intros Hn Hnb. unfold greedy_msc.
  by rewrite (sorted_vertices_ext g1 g2), (color_vertices_ext g1 g2).
Qed.

(** ** The tabu search: one pass *)

Section tabu_search_facts.
Context (set_iter : gset Z → list Z).

Lemma any_holds_false (coloring : gmap Z Z) (new_color : Z) (us : list Z) :
  any_holds coloring new_color us = Ok false →
  ∀ u, u ∈ us → ∃ cu, coloring !! u = Some cu ∧ cu ≠ new_color.
Proof.
  induction us as [|u' us IH]; intros Hrun u Hu.
  { by apply elem_of_nil in Hu. }
  cbn [any_holds] in Hrun. apply bind_Ok in Hrun as (c & Hc & Hrun).
  apply getitem_Ok in Hc. destruct (decide (c = new_color)); [done|].
  apply elem_of_cons in Hu as [->|Hu]; [by exists c|by apply IH].
Qed.

Lemma any_holds_returns (coloring : gmap Z Z) (new_color : Z) (us : list Z) :
  (∀ u, u ∈ us → is_Some (coloring !! u)) →
  ∃ b, any_holds coloring new_color us = Ok b.
Proof.
  induction us as [|u us IH]; intros Hcol; [by exists false|].
  cbn [any_holds]. destruct (Hcol u) as [c Hc]; [left|].
  unfold getitem. rewrite Hc. cbn [mbind outcome_bind].
  destruct (decide (c = new_color)); [by exists true|].
  apply IH. intros u' Hu'. apply Hcol. by right.
Qed.

(** What a [candidate] that is let through guarantees. *)
Lemma candidate_Some (g : Graph) (st : search_state)
    (it v current_color new_color new_value : Z) :
  candidate set_iter g st it v current_color new_color = Ok (Some new_value) →
  new_color ≠ current_color
  ∧ (∀ u, u ∈ set_iter (neighbors g v) →
       ∃ cu, current_coloring st !! u = Some cu ∧ cu ≠ new_color)
  ∧ new_value = current_value st - current_color + new_color
  ∧ (it ≤ default (-1) (tabu st !! (v, new_color)) →
     new_value < best_value st).
Proof.
  unfold candidate. destruct (decide (new_color = current_color)); [done|].
  intros Hrun. apply bind_Ok in Hrun as (conflict & Hany & Hrun).
  destruct conflict; [done|].
  destruct (bool_decide (it ≤ _) && _) eqn:Htabu; [done|].
  injection Hrun as <-. split; [done|].
  split; [by apply any_holds_false|]. split; [done|].
  intros Hit. apply andb_false_iff in Htabu as [Htabu|Htabu].
  - apply bool_decide_eq_false in Htabu. lia.
  - apply bool_decide_eq_false in Htabu. lia.
Qed.

Lemma candidate_returns (g : Graph) (st : search_state)
    (it v current_color new_color : Z) :
  (∀ u, u ∈ set_iter (neighbors g v) → is_Some (current_coloring st !! u)) →
  ∃ r, candidate set_iter g st it v current_color new_color = Ok r.
Proof.
  intros Hcol. unfold candidate.
  destruct (decide (new_color = current_color)); [by eexists|].
  destruct (any_holds_returns (current_coloring st) new_color _ Hcol)
    as [b ->].
  cbn [mbind outcome_bind]. destruct b; [by eexists|].
  destruct (_ && _); by eexists.
Qed.

Lemma keep_best_chosen (g : Graph) (st : search_state) (it : Z)
    (best_move : best_move_t) (v current_color new_color new_value : Z) :
  current_coloring st !! v = Some current_color →
  candidate set_iter g st it v current_color new_color = Ok (Some new_value) →
  chosen set_iter g st it best_move →
  chosen set_iter g st it (keep_best best_move v new_color new_value).
Proof.
  intros Hv Hcand Hbm. unfold keep_best.
  destruct best_move as [[[v' c'] val']|]; [|by exists current_color].
  destruct (decide (new_value < val')); [by exists current_color|done].
Qed.

Lemma scan_colors_chosen (g : Graph) (st : search_state) (it : Z)
    (v current_color : Z) (colors : list Z) (best_move best_move' : best_move_t) :
  current_coloring st !! v = Some current_color →
  chosen set_iter g st it best_move →
  scan_colors set_iter g st it v current_color colors best_move
    = Ok best_move' →
  chosen set_iter g st it best_move'.
Proof.
  intros Hv. revert best_move.
  induction colors as [|c colors IH]; intros best_move Hbm Hrun.
  { by injection Hrun as <-. }
  cbn [scan_colors] in Hrun. apply bind_Ok in Hrun as (r & Hcand & Hrun).
  apply IH in Hrun; [done|].
  destruct r as [new_value|]; [|done]. by eapply keep_best_chosen.
Qed.

Lemma scan_vertices_chosen (g : Graph) (st : search_state) (it : Z)
    (vertices : list Z) (best_move best_move' : best_move_t) :
  chosen set_iter g st it best_move →
  scan_vertices set_iter g st it vertices best_move = Ok best_move' →
  chosen set_iter g st it best_move'.
Proof.
  revert best_move.
  induction vertices as [|v vertices IH]; intros best_move Hbm Hrun.
  { by injection Hrun as <-. }
  cbn [scan_vertices] in Hrun.
  apply bind_Ok in Hrun as (current_color & Hv & Hrun).
  apply bind_Ok in Hrun as (bm1 & Hcolors & Hrun).
  apply getitem_Ok in Hv. apply IH in Hrun; [done|].
  by eapply scan_colors_chosen.
Qed.

Lemma scan_colors_returns (g : Graph) (st : search_state) (it : Z)
    (v current_color : Z) (colors : list Z) (best_move : best_move_t) :
  (∀ u, u ∈ set_iter (neighbors g v) → is_Some (current_coloring st !! u)) →
  ∃ best_move',
    scan_colors set_iter g st it v current_color colors best_move
      = Ok best_move'.
Proof.
  intros Hcol. revert best_move.
  induction colors as [|c colors IH]; intros best_move; [by eexists|].
  cbn [scan_colors].
  destruct (candidate_returns g st it v current_color c Hcol) as [r ->].
  cbn [mbind outcome_bind]. apply IH.
Qed.

Lemma scan_vertices_returns (g : Graph) (st : search_state) (it : Z)
    (vertices : list Z) (best_move : best_move_t) :
  (∀ v, v ∈ vertices → is_Some (current_coloring st !! v)) →
  (∀ v u, u ∈ set_iter (neighbors g v) →
     is_Some (current_coloring st !! u)) →
  ∃ best_move',
    scan_vertices set_iter g st it vertices best_move = Ok best_move'.
Proof.
  intros Hvs Hcol. revert best_move.
  induction vertices as [|v vertices IH]; intros best_move; [by eexists|].
  cbn [scan_vertices]. destruct (Hvs v) as [current_color Hv]; [left|].
  unfold getitem. rewrite Hv. cbn [mbind outcome_bind].
  destruct (scan_colors_returns g st it v current_color
              (range 1 (max_color st + 2)) best_move (Hcol v)) as [bm1 ->].
  cbn [mbind outcome_bind]. apply IH. intros v' Hv'. apply Hvs. by right.
Qed.

(** A pass that applies a move: the move was let through by [candidate]
    at the incremented counter, and the next state is the one of lines
    93 to 110. *)
Lemma iterate_Some (config : TabuSearchConfig) (g : Graph)
    (st st' : search_state) :
  iterate set_iter config g st = Ok (Some st') →
  ∃ v old_color new_color new_value,
    let it := iteration st + 1 in
    let improves := bool_decide (new_value < best_value st) in
    current_coloring st !! v = Some old_color
    ∧ candidate set_iter g st it v old_color new_color = Ok (Some new_value)
    ∧ st' = {| current_coloring := <[v := new_color]> (current_coloring st);
               current_value := new_value;
               best_coloring :=
                 if improves then <[v := new_color]> (current_coloring st)
                 else best_coloring st;
               best_value := if improves then new_value else best_value st;
               tabu := <[(v, old_color) := it + tabu_tenure config]> (tabu st);
               max_color := Z.max (max_color st) new_color;
               iterations_without_improve :=
                 if improves then 0 else iterations_without_improve st + 1;
               iteration := it |}.
Proof.
  unfold iterate. intros Hrun.
  apply bind_Ok in Hrun as (best_move & Hscan & Hrun).
  apply scan_vertices_chosen in Hscan; [|done].
  destruct best_move as [[[v new_color] new_value]|]; [|done].
  destruct Hscan as (old_color & Hv & Hcand).
  apply bind_Ok in Hrun as (st1 & Happly & [= <-]).
  unfold apply_move, getitem in Happly. rewrite Hv in Happly.
  cbn [mbind outcome_bind] in Happly. injection Happly as <-.
  by exists v, old_color, new_color, new_value.
Qed.

Lemma iterate_returns (config : TabuSearchConfig) (g : Graph)
    (st : search_state) :
  (∀ v, 0 ≤ v < n g → is_Some (current_coloring st !! v)) →
  (∀ v u, u ∈ set_iter (neighbors g v) →
     is_Some (current_coloring st !! u)) →
  ∃ r, iterate set_iter config g st = Ok r.
Proof.
  intros Hvs Hcol. unfold iterate.
  destruct (scan_vertices_returns g st (iteration st + 1) (range 0 (n g)) None)
    as [best_move Hscan]; [|done|].
  { intros v Hv. apply Hvs. by apply elem_of_range in Hv. }
  rewrite Hscan. cbn [mbind outcome_bind].
  apply scan_vertices_chosen in Hscan; [|done].
  destruct best_move as [[[v new_color] new_value]|]; [|by eexists].
  destruct Hscan as (old_color & Hv & _).
  unfold apply_move, getitem. rewrite Hv. cbn [mbind outcome_bind].
  by eexists.
Qed.

(** *** What one applied move preserves *)

Lemma iterate_iteration (config : TabuSearchConfig) (g : Graph)
    (st st' : search_state) :
  iterate set_iter config g st = Ok (Some st') →
  iteration st' = iteration st + 1.
Proof.
  intros Hrun. apply iterate_Some in Hrun as (v & a & b & nv & _ & _ & ->).
  done.
Qed.

Lemma iterate_dom (config : TabuSearchConfig) (g : Graph)
    (st st' : search_state) :
  iterate set_iter config g st = Ok (Some st') →
  dom (current_coloring st') = dom (current_coloring st).
Proof.
  intros Hrun. apply iterate_Some in Hrun as (v & a & b & nv & Hv & _ & ->).
  cbn [current_coloring]. rewrite dom_insert_L.
  apply elem_of_dom_2 in Hv. apply set_eq. intros x.
  rewrite elem_of_union, elem_of_singleton. split; [|by right].
  by intros [->|?].
Qed.

Lemma iterate_best_value (config : TabuSearchConfig) (g : Graph)
    (st st' : search_state) :
  iterate set_iter config g st = Ok (Some st') →
  best_value st' ≤ best_value st.
Proof.
  intros Hrun. apply iterate_Some in Hrun as (v & a & b & nv & _ & _ & ->).
  cbn [best_value]. case_bool_decide; lia.
Qed.

Lemma iterate_sums_agree (config : TabuSearchConfig) (g : Graph)
    (st st' : search_state) :
  sums_agree st →
  iterate set_iter config g st = Ok (Some st') →
  sums_agree st'.
Proof.
  intros [Hcur Hbest] Hrun.
  apply iterate_Some in Hrun as (v & a & b & nv & Hv & Hcand & ->).
  apply candidate_Some in Hcand as (_ & _ & -> & _).
  unfold sums_agree. cbn [current_value current_coloring best_value best_coloring].
  rewrite (sum_values_insert _ v a b Hv), <- Hcur.
  split; [done|]. case_bool_decide; [|done].
  by rewrite (sum_values_insert _ v a b Hv), <- Hcur.
Qed.

(** *** The loop *)

Lemma tabu_loop_invariant (P : search_state → Prop)
    (config : TabuSearchConfig) (g : Graph) :
  (∀ st st', P st → iterate set_iter config g st = Ok (Some st') → P st') →
  ∀ fuel st st',
    P st → tabu_loop set_iter fuel config g st = Ok st' → P st'.
Proof.
  intros Hkeep. induction fuel as [|fuel IH]; intros st st' HP Hrun.
  - cbn [tabu_loop] in Hrun. destruct (loop_cond config st); [done|].
    by injection Hrun as <-.
  - cbn [tabu_loop] in Hrun. destruct (loop_cond config st).
    + apply bind_Ok in Hrun as (r & Hiter & Hrun).
      destruct r as [st1|]; [|by injection Hrun as <-].
      eapply IH; [|done]. by eapply Hkeep.
    + by injection Hrun as <-.
Qed.

(** No part of a pass has a loop of its own that could run out of
    fuel. *)
Lemma any_holds_fuel (coloring : gmap Z Z) (new_color : Z) (us : list Z) :
  any_holds coloring new_color us ≠ OutOfFuel.
Proof.
  induction us as [|u us IH]; [done|].
  cbn [any_holds]. unfold getitem.
  destruct (coloring !! u); cbn [mbind outcome_bind]; [|done].
  by case_decide.
Qed.

Lemma scan_colors_fuel (g : Graph) (st : search_state) (it : Z)
    (v current_color : Z) (colors : list Z) (best_move : best_move_t) :
  scan_colors set_iter g st it v current_color colors best_move ≠ OutOfFuel.
Proof.
  revert best_move. induction colors as [|c colors IH]; intros bm; [done|].
  cbn [scan_colors]. unfold candidate. case_decide.
  { cbn [mbind outcome_bind]. apply IH. }
  pose proof (any_holds_fuel (current_coloring st) c
                (set_iter (neighbors g v))) as Hany.
  destruct (any_holds _ _ _) as [[|]|e|];
    cbn [mbind outcome_bind]; [apply IH| |done|done].
  destruct (_ && _); cbn [mbind outcome_bind]; apply IH.
Qed.

Lemma scan_vertices_fuel (g : Graph) (st : search_state) (it : Z)
    (vertices : list Z) (best_move : best_move_t) :
  scan_vertices set_iter g st it vertices best_move ≠ OutOfFuel.
Proof.
  revert best_move. induction vertices as [|v vs IH]; intros bm; [done|].
  cbn [scan_vertices]. unfold getitem.
  destruct (current_coloring st !! v) as [cc|];
    cbn [mbind outcome_bind]; [|done].
  pose proof (scan_colors_fuel g st it v cc (range 1 (max_color st + 2)) bm)
    as Hcolors.
  destruct (scan_colors _ _ _ _ _ _ _ _) as [bm1|e|];
    cbn [mbind outcome_bind]; [apply IH|done|done].
Qed.

Lemma iterate_fuel (config : TabuSearchConfig) (g : Graph)
    (st : search_state) :
  iterate set_iter config g st ≠ OutOfFuel.
Proof.
  unfold iterate.
  pose proof (scan_vertices_fuel g st (iteration st + 1) (range 0 (n g)) None)
    as Hscan.
  destruct (scan_vertices _ _ _ _ _ _) as [[[[v c] val]|]|e|];
    cbn [mbind outcome_bind]; [|done..].
  unfold apply_move, getitem.
  by destruct (current_coloring st !! v).
Qed.

(** The fuel is not the reason for a run to stop: the loop condition
    fails first. *)
Lemma tabu_loop_fuel (config : TabuSearchConfig) (g : Graph)
    (fuel : nat) (st : search_state) :
  max_iterations config - iteration st ≤ Z.of_nat fuel →
  tabu_loop set_iter fuel config g st ≠ OutOfFuel.
Proof.
  revert st. induction fuel as [|fuel IH]; intros st Hfuel.
  - cbn [tabu_loop]. destruct (loop_cond config st) eqn:Hcond; [|done].
    apply andb_true_iff in Hcond as [Hit _].
    apply bool_decide_eq_true in Hit. lia.
  - cbn [tabu_loop]. destruct (loop_cond config st) eqn:Hcond; [|done].
    pose proof (iterate_fuel config g st) as Hpass.
    destruct (iterate set_iter config g st) as [[st1|]|e|] eqn:Hiter;
      cbn [mbind outcome_bind]; [|done..].
    apply IH. apply iterate_iteration in Hiter. lia.
Qed.

(** [tabu_search_msc] terminates on every input: it returns or raises. *)
Lemma tabu_search_msc_terminates (g : Graph) (initial_coloring : gmap Z Z)
    (config : option TabuSearchConfig) :
  tabu_search_msc set_iter g initial_coloring config ≠ OutOfFuel.
Proof.
  unfold tabu_search_msc.
  set (cfg := default default_config config).
  pose proof (tabu_loop_fuel cfg g (Z.to_nat (max_iterations cfg))
                (initial_state initial_coloring)) as Hfuel.
  destruct (tabu_loop _ _ _ _ _); cbn [mbind outcome_bind]; [done..|].
  intros _. apply Hfuel; [|done]. cbn [iteration initial_state]. lia.
Qed.

Lemma tabu_loop_returns (P : search_state → Prop)
    (config : TabuSearchConfig) (g : Graph) :
  (∀ st st', P st → iterate set_iter config g st = Ok (Some st') → P st') →
  (∀ st, P st → ∃ r, iterate set_iter config g st = Ok r) →
  ∀ fuel st,
    P st → max_iterations config - iteration st ≤ Z.of_nat fuel →
    ∃ st', tabu_loop set_iter fuel config g st = Ok st'.
Proof.
  intros Hkeep Hret. induction fuel as [|fuel IH]; intros st HP Hfuel.
  - pose proof (tabu_loop_fuel config g 0 st Hfuel) as Hno.
    cbn [tabu_loop] in *. destruct (loop_cond config st); [done|by eexists].
  - cbn [tabu_loop]. destruct (loop_cond config st); [|by eexists].
    destruct (Hret st HP) as [r Hiter]. rewrite Hiter.
    cbn [mbind outcome_bind]. destruct r as [st1|]; [|by eexists].
    apply IH; [by eapply Hkeep|].
    apply iterate_iteration in Hiter. lia.
Qed.

(** A run of the loop is a sequence of [step]s. *)
Lemma tabu_loop_run (config : TabuSearchConfig) (g : Graph)
    (fuel : nat) (st st' : search_state) :
  tabu_loop set_iter fuel config g st = Ok st' →
  rtc (step set_iter config g) st st'.
Proof.
  revert st. induction fuel as [|fuel IH]; intros st Hrun.
  - cbn [tabu_loop] in Hrun. destruct (loop_cond config st); [done|].
    injection Hrun as <-. apply rtc_refl.
  - cbn [tabu_loop] in Hrun.
    destruct (loop_cond config st) eqn:Hcond;
      [|injection Hrun as <-; apply rtc_refl].
    apply bind_Ok in Hrun as (r & Hiter & Hrun).
    destruct r as [st1|]; [|injection Hrun as <-; apply rtc_refl].
    eapply rtc_l; [|by apply IH]. by split.
Qed.

Lemma run_invariant (P : search_state → Prop)
    (config : TabuSearchConfig) (g : Graph) (st st' : search_state) :
  (∀ st st', P st → iterate set_iter config g st = Ok (Some st') → P st') →
  rtc (step set_iter config g) st st' → P st → P st'.
Proof.
  intros Hkeep. induction 1 as [|st st1 st2 [_ Hiter] _ IH]; [done|].
  intros HP. apply IH. by eapply Hkeep.
Qed.

(** Whatever the graph and the coloring are: a result that is returned
    carries the sum of its colors, and that sum is at most the initial
    one. *)
Lemma tabu_search_msc_Ok (g : Graph) (initial_coloring coloring : gmap Z Z)
    (config : option TabuSearchConfig) (value : Z) :
  tabu_search_msc set_iter g initial_coloring config = Ok (coloring, value) →
  value = sum_values coloring ∧ value ≤ sum_values initial_coloring.
Proof.
  unfold tabu_search_msc. intros Hrun.
  apply bind_Ok in Hrun as (st & Hloop & [= <- <-]).
  apply (tabu_loop_invariant
           (λ st, sums_agree st ∧ best_value st ≤ sum_values initial_coloring))
    in Hloop as [[_ Hsum] Hle]; [done| |done].
  intros s s' [Hs Hle] Hiter. split; [by eapply iterate_sums_agree|].
  apply iterate_best_value in Hiter. lia.
Qed.

End tabu_search_facts.

(** ** The tabu search: whole runs *)

Section tabu_search_runs.
Context (set_iter : gset Z → list Z).
Hypothesis set_iter_perm : ∀ X, set_iter X ≡ₚ elements X.

Lemma elem_of_set_iter (X : gset Z) (u : Z) : u ∈ set_iter X ↔ u ∈ X.
Proof. by rewrite set_iter_perm, elem_of_elements. Qed.

Lemma iterate_feasible (config : TabuSearchConfig) (g : Graph)
    (st st' : search_state) :
  graph_wf g →
  feasible g (current_coloring st) ∧ feasible g (best_coloring st) →
  iterate set_iter config g st = Ok (Some st') →
  feasible g (current_coloring st') ∧ feasible g (best_coloring st').
Proof.
  intros Hwf [Hcur Hbest] Hrun.
  apply iterate_Some in Hrun as (v & a & b & nv & Hv & Hcand & ->).
  apply candidate_Some in Hcand as (_ & Hfree & _ & _).
  cbn [current_coloring best_coloring].
  assert (feasible g (<[v := b]> (current_coloring st))) as Hnew.
  { intros x y Hedge. destruct (Hcur x y Hedge) as (cx & cy & Hx & Hy & Hne).
    destruct (decide (x = v)) as [->|Hxv]; destruct (decide (y = v)) as [->|Hyv].
    - congruence.
    - destruct (Hfree y) as (cu & Hcu & Hneq); [by apply elem_of_set_iter|].
      exists b, cy. rewrite lookup_insert_eq, lookup_insert_ne by done.
      repeat split; [done|congruence].
    - destruct (Hfree x) as (cu & Hcu & Hneq).
      { apply elem_of_set_iter. by apply (wf_symmetric g Hwf). }
      exists cx, b. rewrite lookup_insert_eq, lookup_insert_ne by done.
      repeat split; [done|congruence].
    - exists cx, cy. by rewrite !lookup_insert_ne by done. }
  split; [done|]. by case_bool_decide.
Qed.

Lemma iterate_total (config : TabuSearchConfig) (g : Graph)
    (st st' : search_state) :
  total_coloring g (current_coloring st) →
  iterate set_iter config g st = Ok (Some st') →
  total_coloring g (current_coloring st').
Proof.
  intros Htot Hrun v Hv. apply elem_of_dom.
  rewrite (iterate_dom _ _ _ _ _ Hrun). apply elem_of_dom. by apply Htot.
Qed.

Lemma iterate_returns_wf (config : TabuSearchConfig) (g : Graph)
    (st : search_state) :
  graph_wf g → total_coloring g (current_coloring st) →
  ∃ r, iterate set_iter config g st = Ok r.
Proof.
  intros Hwf Htot. apply iterate_returns; [done|].
  intros v u Hu. apply elem_of_set_iter in Hu.
  apply Htot. by apply (wf_in_range g Hwf v u).
Qed.

(** On a well-formed graph and a total coloring the search returns, and
    every property that the applied moves preserve holds of the state it
    stops in. *)
Lemma tabu_search_msc_returns (P : search_state → Prop) (g : Graph)
    (initial_coloring : gmap Z Z) (config : option TabuSearchConfig) :
  graph_wf g → total_coloring g initial_coloring →
  (∀ st st', total_coloring g (current_coloring st) → P st →
     iterate set_iter (default default_config config) g st = Ok (Some st') →
     P st') →
  P (initial_state initial_coloring) →
  ∃ st, tabu_search_msc set_iter g initial_coloring config
        = Ok (best_coloring st, best_value st)
        ∧ P st.
Proof.
  intros Hwf Htot Hkeep Hinit. unfold tabu_search_msc.
  set (cfg := default default_config config) in *.
  set (Q := λ st, total_coloring g (current_coloring st) ∧ P st).
  assert (∀ st st', Q st → iterate set_iter cfg g st = Ok (Some st') → Q st')
    as HQ.
  { intros st st' [Ht HP] Hrun. split; [by eapply iterate_total|].
    by eapply Hkeep. }
  destruct (tabu_loop_returns set_iter Q cfg g HQ) with
    (fuel := Z.to_nat (max_iterations cfg))
    (st := initial_state initial_coloring) as [st Hrun].
  - intros st [Ht _]. by apply iterate_returns_wf.
  - by split.
  - cbn [iteration initial_state]. lia.
  - exists st. rewrite Hrun. split; [done|].
    assert (Q (initial_state initial_coloring)) as HQ0 by by split.
    by destruct (tabu_loop_invariant set_iter Q cfg g HQ _ _ _ HQ0 Hrun).
Qed.

(** C1 (non-regression). On a graph that satisfies the graph model's
    invariants and a coloring that colors every vertex, [tabu_search_msc]
    returns, for every configuration (also the default one), and the
    objective value it returns is at most the sum of the colors of the
    initial coloring. *)
Theorem tabu_search_msc_non_regression (g : Graph)
    (initial_coloring : gmap Z Z) (config : option TabuSearchConfig) :
  graph_wf g → total_coloring g initial_coloring →
  ∃ coloring value,
    tabu_search_msc set_iter g initial_coloring config = Ok (coloring, value)
    ∧ value ≤ sum_values initial_coloring.
Proof.
  intros Hwf Htot.
  destruct (tabu_search_msc_returns
              (λ st, best_value st ≤ sum_values initial_coloring)
              g initial_coloring config Hwf Htot) as (st & Hrun & Hle).
  - intros st st' _ Hle Hiter. apply iterate_best_value in Hiter. lia.
  - done.
  - by exists (best_coloring st), (best_value st).
Qed.

Lemma tabu_search_msc_feasible (g : Graph) (initial_coloring : gmap Z Z)
    (config : option TabuSearchConfig) :
  graph_wf g →
  total_coloring g initial_coloring → feasible g initial_coloring →
  ∃ coloring value,
    tabu_search_msc set_iter g initial_coloring config = Ok (coloring, value)
    ∧ feasible g coloring.
Proof.
  intros Hwf Htot Hfeas.
  destruct (tabu_search_msc_returns
              (λ st, feasible g (current_coloring st)
                     ∧ feasible g (best_coloring st))
              g initial_coloring config Hwf Htot)
    as (st & Hrun & _ & Hbest).
  - intros st st' _ Hst Hiter. by eapply iterate_feasible.
  - done.
  - by exists (best_coloring st), (best_value st).
Qed.

(** C2 (feasibility invariant). On a graph that satisfies the graph
    model's invariants, [greedy_msc] returns a coloring in which the two
    ends of every edge have different colors, and so does
    [tabu_search_msc] from every feasible initial coloring that colors
    every vertex, for every configuration. *)
Theorem outputs_are_feasible (g : Graph) :
  graph_wf g →
  (∃ coloring total,
     greedy_msc g = Ok (coloring, total) ∧ feasible g coloring)
  ∧ (∀ initial_coloring config,
       total_coloring g initial_coloring → feasible g initial_coloring →
       ∃ coloring value,
         tabu_search_msc set_iter g initial_coloring config
           = Ok (coloring, value)
         ∧ feasible g coloring).
Proof.
  intros Hwf. split.
  - destruct (greedy_msc_feasible g Hwf) as (c & t & Hrun & _ & Hfeas).
    by exists c, t.
  - intros initial_coloring config Htot Hfeas.
    by apply tabu_search_msc_feasible.
Qed.

(** C5 (incremental objective). On a graph that satisfies the graph
    model's invariants and a coloring that colors every vertex,
    [tabu_search_msc] returns a coloring together with the sum of its
    colors; and in every state of the run the running objective, kept up
    by the delta of each move, is the sum of the colors of the current
    coloring. *)
Theorem returned_value_is_sum_of_colors (g : Graph)
    (initial_coloring : gmap Z Z) (config : option TabuSearchConfig) :
  graph_wf g → total_coloring g initial_coloring →
  (∃ coloring value,
     tabu_search_msc set_iter g initial_coloring config = Ok (coloring, value)
     ∧ value = sum_values coloring)
  ∧ (∀ st, rtc (step set_iter (default default_config config) g)
             (initial_state initial_coloring) st →
       current_value st = sum_values (current_coloring st)
       ∧ best_value st = sum_values (best_coloring st)).
Proof.
  intros Hwf Htot. split.
  - destruct (tabu_search_msc_returns sums_agree
                g initial_coloring config Hwf Htot) as (st & Hrun & _ & Hsum).
    + intros st st' _ Hst Hiter. by eapply iterate_sums_agree.
    + done.
    + by exists (best_coloring st), (best_value st).
  - intros st Hrun.
    apply (run_invariant set_iter sums_agree _ g _ st) in Hrun; [done| |done].
    intros s s' Hs Hiter. by eapply iterate_sums_agree.
Qed.

(** C10 (no pass). With [max_iterations ≤ 0] or [max_no_improve ≤ 0] the
    loop is not entered, whatever the graph and the coloring are: the
    state stays the initial one and the result is the initial coloring
    with the sum of its colors. *)
Theorem no_pass_returns_initial_coloring (g : Graph)
    (initial_coloring : gmap Z Z) (config : TabuSearchConfig) :
  max_iterations config ≤ 0 ∨ max_no_improve config ≤ 0 →
  (∀ fuel, tabu_loop set_iter fuel config g (initial_state initial_coloring)
           = Ok (initial_state initial_coloring))
  ∧ tabu_search_msc set_iter g initial_coloring (Some config)
    = Ok (initial_coloring, sum_values initial_coloring).
Proof.
  intros Hcfg.
  assert (loop_cond config (initial_state initial_coloring) = false) as Hcond.
  { unfold loop_cond. cbn [iteration iterations_without_improve initial_state].
    apply andb_false_iff.
    destruct Hcfg; [left|right]; apply bool_decide_eq_false; lia. }
  assert (∀ fuel, tabu_loop set_iter fuel config g
                    (initial_state initial_coloring)
                  = Ok (initial_state initial_coloring)) as Hloop.
  { intros [|fuel]; cbn [tabu_loop]; by rewrite Hcond. }
  split; [done|]. unfold tabu_search_msc. cbn [default]. by rewrite Hloop.
Qed.

(** C3 (tabu respects tenure). Let a step of a run, made at iteration
    [t = iteration st'], move vertex [v] from color [a] to another color
    [b]. In every later state of the run whose next pass has a counter of
    at most [t + tabu_tenure], the record of the pair [(v, a)] makes the
    move back to [a] tabu, and [candidate] lets it through only with a
    resulting objective strictly below the best objective. *)
Theorem tabu_respects_tenure (config : TabuSearchConfig) (g : Graph)
    (st st' st'' : search_state) (v a b : Z) :
  step set_iter config g st st' →
  current_coloring st !! v = Some a →
  current_coloring st' !! v = Some b →
  a ≠ b →
  rtc (step set_iter config g) st' st'' →
  iteration st'' + 1 ≤ iteration st' + tabu_tenure config →
  iteration st'' + 1 ≤ default (-1) (tabu st'' !! (v, a))
  ∧ (∀ current_color new_value,
       candidate set_iter g st'' (iteration st'' + 1) v current_color a
         = Ok (Some new_value) →
       new_value < best_value st'').
Proof.
  intros [_ Hstep] Ha Hb Hab Hrun Hwithin.
  set (t := iteration st') in *.
  assert (∃ x, tabu st'' !! (v, a) = Some x ∧ t + tabu_tenure config ≤ x)
    as (x & Hx & Hle).
  { cut (∃ x, tabu st'' !! (v, a) = Some x ∧ t + tabu_tenure config ≤ x
              ∧ t ≤ iteration st'').
    { intros (x & Hx & Hle & _). by exists x. }
    apply (run_invariant set_iter
             (λ s, ∃ x, tabu s !! (v, a) = Some x
                        ∧ t + tabu_tenure config ≤ x ∧ t ≤ iteration s)
             config g st' st''); [|done|].
    - intros s s' (x & Hx & Hle & Hit) Hiter.
      apply iterate_Some in Hiter as (v1 & a1 & b1 & nv & _ & _ & ->).
      cbn [tabu iteration].
      destruct (decide ((v1, a1) = (v, a))) as [->|Hne].
      + eexists. rewrite lookup_insert_eq. split; [done|]. lia.
      + exists x. rewrite lookup_insert_ne by done. split; [done|]. lia.
    - apply iterate_Some in Hstep as (v1 & a1 & b1 & nv & Hv1 & _ & Hst').
      assert (v1 = v) as ->.
      { destruct (decide (v1 = v)) as [|Hne]; [done|]. subst st'.
        cbn [current_coloring] in Hb. rewrite lookup_insert_ne in Hb by done.
        congruence. }
      assert (a1 = a) as -> by congruence.
      exists (t + tabu_tenure config). subst t. subst st'.
      cbn [tabu iteration]. rewrite lookup_insert_eq.
      split; [done|]. lia. }
  rewrite Hx. simpl. split; [lia|].
  intros current_color new_value Hcand.
  apply candidate_Some in Hcand as (_ & _ & _ & Hasp).
  apply Hasp. rewrite Hx. simpl. lia.
Qed.

End tabu_search_runs.

(** ** The greedy constructor: processing order and colors *)

(** C4 (greedy algorithm). [greedy_msc] returns for every graph. The
    vertices are processed in an order that holds each vertex of
    [range(n)] once, by decreasing degree and, at equal degree, by
    increasing vertex id. Each vertex has in the returned coloring the
    least positive color that no neighbor processed before it holds. The
    second component is the sum of the colors of the vertices. *)
Theorem greedy_msc_degree_order_least_color (g : Graph) :
  ∃ coloring total,
    greedy_msc g = Ok (coloring, total)
    ∧ total = foldr Z.add 0 (omap (λ v, coloring !! v) (range 0 (n g)))
    ∧ total = sum_values coloring
    ∧ dom coloring = list_to_set (range 0 (n g))
    ∧ sorted_vertices g ≡ₚ range 0 (n g)
    ∧ (∀ (i j : nat) u v,
         sorted_vertices g !! i = Some u → sorted_vertices g !! j = Some v →
         (i < j)%nat →
         degree g v < degree g u ∨ (degree g v = degree g u ∧ u < v))
    ∧ (∀ pre v post, sorted_vertices g = pre ++ v :: post →
         ∃ c, coloring !! v = Some c ∧ least_free_color g coloring pre v c).
Proof.
  destruct (greedy_msc_spec g) as (coloring & Hrun & Hdom & Hsum & Hspec).
  exists coloring, (sum_values coloring).
  split; [done|]. split; [done|]. split; [done|]. split; [done|].
  split; [apply sorted_vertices_perm|]. split; [|done].
  intros i j u v Hi Hj Hlt.
  pose proof (StronglySorted_lookup_lt (key_le g) _ i j u v
                (sorted_vertices_sorted g) Hi Hj Hlt) as Hle.
  assert (u ≠ v) as Hne.
  { intros ->.
    pose proof (NoDup_lookup _ i j v (sorted_vertices_NoDup g) Hi Hj). lia. }
  unfold key_le, tuple_le, sort_key in Hle. simpl in Hle. lia.
Qed.

(** ** Graph generation *)

Section graph_generation_facts.
Context `{RandomSource}.

Lemma elem_of_dom_empty_adjacency (n v : Z) :
  v ∈ dom (empty_adjacency n) ↔ 0 ≤ v < n.
Proof.
  unfold empty_adjacency. rewrite dom_list_to_map_L, elem_of_list_to_set.
  rewrite <- list_fmap_compose, list_fmap_id. apply elem_of_range.
Qed.

Lemma add_neighbor_returns (adj : gmap Z (gset Z)) (u v : Z) :
  u ∈ dom adj →
  ∃ adj', add_neighbor adj u v = Ok adj' ∧ dom adj' = dom adj.
Proof.
  intros Hu. pose proof Hu as Hdom. apply elem_of_dom in Hu as [s Hs].
  unfold add_neighbor, getitem. rewrite Hs. cbn [mbind outcome_bind].
  eexists. split; [done|]. rewrite dom_insert_L. apply set_eq. intros x.
  rewrite elem_of_union, elem_of_singleton. split; [|by right].
  by intros [->|?].
Qed.

Lemma draw_edges_returns (p : float) (u : Z) (vs : list Z)
    (adj : gmap Z (gset Z)) (rng : rng_state) :
  u ∈ dom adj → (∀ v, v ∈ vs → v ∈ dom adj) →
  ∃ adj' rng',
    draw_edges p u vs adj rng = Ok (adj', rng') ∧ dom adj' = dom adj.
Proof.
  revert adj rng. induction vs as [|v vs IH]; intros adj rng Hu Hvs.
  { by exists adj, rng. }
  cbn [draw_edges]. destruct (random rng) as [x rng'].
  destruct (PrimFloat.ltb x p).
  - destruct (add_neighbor_returns adj u v Hu) as (adj1 & -> & Hd1).
    cbn [mbind outcome_bind].
    destruct (add_neighbor_returns adj1 v u) as (adj2 & -> & Hd2).
    { rewrite Hd1. apply Hvs. left. }
    cbn [mbind outcome_bind].
    destruct (IH adj2 rng') as (adj' & rng'' & Hrun & Hd).
    { by rewrite Hd2, Hd1. }
    { intros v' Hv'. rewrite Hd2, Hd1. apply Hvs. by right. }
    exists adj', rng''. split; [done|]. by rewrite Hd, Hd2, Hd1.
  - apply IH; [done|]. intros v' Hv'. apply Hvs. by right.
Qed.

Lemma draw_rows_returns (p : float) (n : Z) (us : list Z)
    (adj : gmap Z (gset Z)) (rng : rng_state) :
  (∀ u, u ∈ us → 0 ≤ u < n) → (∀ v, 0 ≤ v < n → v ∈ dom adj) →
  ∃ adj' rng',
    draw_rows p n us adj rng = Ok (adj', rng') ∧ dom adj' = dom adj.
Proof.
  revert adj rng. induction us as [|u us IH]; intros adj rng Hus Hdom.
  { by exists adj, rng. }
  cbn [draw_rows].
  destruct (draw_edges_returns p u (range (u + 1) n) adj rng)
    as (adj1 & rng1 & -> & Hd1).
  { apply Hdom, Hus. left. }
  { intros v Hv. apply elem_of_range in Hv. apply Hdom.
    specialize (Hus u). rewrite elem_of_cons in Hus. lia. }
  cbn [mbind outcome_bind].
  destruct (IH adj1 rng1) as (adj' & rng' & Hrun & Hd).
  { intros u' Hu'. apply Hus. by right. }
  { intros v Hv. rewrite Hd1. by apply Hdom. }
  exists adj', rng'. split; [done|]. by rewrite Hd, Hd1.
Qed.

(** With [p] in range the generator returns a graph on [n], for every
    [n], seed and generator. *)
Lemma generate_erdos_renyi_graph_returns (entropy : rng_state)
    (n : Z) (p : float) (seed : option Z) :
  in_unit_interval p = true →
  ∃ adj, generate_erdos_renyi_graph entropy n p seed
         = Ok {| n := n; adj := adj |}.
Proof.
  intros Hp. unfold generate_erdos_renyi_graph. rewrite Hp. cbn [negb].
  destruct (draw_rows_returns p n (range 0 n) (empty_adjacency n)
              (from_option Random entropy seed))
    as (adj & rng & -> & _).
  - intros u Hu. by apply elem_of_range in Hu.
  - intros v Hv. by apply elem_of_dom_empty_adjacency.
  - by exists adj.
Qed.

Lemma generate_each_seeded (entropy1 entropy2 : nat → rng_state)
    (n : Z) (p : float) (k1 k2 : nat) (seeds : list (option Z)) :
  Forall is_Some seeds →
  generate_each entropy1 n p k1 seeds = generate_each entropy2 n p k2 seeds.
Proof.
  intros Hs. revert k1 k2.
  induction Hs as [|s seeds [seed ->] _ IH]; intros k1 k2; [done|].
  cbn [generate_each]. by rewrite (IH (S k1) (S k2)).
Qed.

Lemma generate_each_lookup (entropy : nat → rng_state)
    (n : Z) (p : float) (k : nat) (seeds : list (option Z))
    (gs : list Graph) :
  generate_each entropy n p k seeds = Ok gs →
  length gs = length seeds
  ∧ (∀ (i : nat) s g, seeds !! i = Some s → gs !! i = Some g →
       generate_erdos_renyi_graph (entropy (k + i)%nat) n p s = Ok g).
Proof.
  revert k gs. induction seeds as [|s seeds IH]; intros k gs Hrun.
  { injection Hrun as <-. split; [done|]. by intros i s g [=]. }
  cbn [generate_each] in Hrun. apply bind_Ok in Hrun as (g & Hg & Hrun).
  apply bind_Ok in Hrun as (gs' & Hrest & [= <-]).
  destruct (IH _ _ Hrest) as [Hlen Hlook]. split; [simpl; lia|].
  intros [|i] s' g' Hs Hg'; simpl in *.
  - simplify_eq. by rewrite Nat.add_0_r.
  - replace (k + S i)%nat with (S k + i)%nat by lia. by apply Hlook.
Qed.

(** *** Generated graphs satisfy the graph model's invariants *)

Lemma add_neighbor_Ok (adj adj' : gmap Z (gset Z)) (u v : Z) :
  add_neighbor adj u v = Ok adj' →
  ∀ w, default ∅ (adj' !! w)
       = default ∅ (adj !! w) ∪ (if decide (w = u) then {[v]} else ∅).
Proof.
  unfold add_neighbor. intros Hrun. apply bind_Ok in Hrun as (s & Hs & [= <-]).
  apply getitem_Ok in Hs. intros w. destruct (decide (w = u)) as [->|Hne].
  - by rewrite lookup_insert_eq, Hs.
  - rewrite lookup_insert_ne by done. by rewrite (right_id_L ∅ (∪)).
Qed.

Lemma draw_edges_ok (p : float) (n u : Z) (vs : list Z)
    (adj adj' : gmap Z (gset Z)) (rng rng' : rng_state) :
  0 ≤ u < n → (∀ v, v ∈ vs → u < v < n) →
  adjacency_ok n adj →
  draw_edges p u vs adj rng = Ok (adj', rng') →
  adjacency_ok n adj'.
Proof.
  intros Hu. revert adj rng. induction vs as [|v vs IH]; intros adj rng Hvs Hok.
  { by intros [= <- _]. }
  cbn [draw_edges]. destruct (random rng) as [x rng1].
  assert (∀ v', v' ∈ vs → u < v' < n) as Hvs' by (intros v' ?; apply Hvs; by right).
  destruct (PrimFloat.ltb x p); [|by apply IH].
  intros Hrun. apply bind_Ok in Hrun as (adj1 & H1 & Hrun).
  apply bind_Ok in Hrun as (adj2 & H2 & Hrun).
  apply (IH adj2 rng1); [done| |done].
  pose proof (add_neighbor_Ok _ _ _ _ H1) as E1.
  pose proof (add_neighbor_Ok _ _ _ _ H2) as E2.
  assert (u < v < n) as Hv by (apply Hvs; left).
  intros w y. rewrite !E2, !E1. intros Hy.
  assert (y ∈ default ∅ (adj !! w) ∨ (w = u ∧ y = v) ∨ (w = v ∧ y = u))
    as [Hold|[[-> ->]|[-> ->]]].
  { apply elem_of_union in Hy as [Hy|Hy];
      [apply elem_of_union in Hy as [Hy|Hy]|]; [by left| |].
    - case_decide; [|by apply elem_of_empty in Hy].
      apply elem_of_singleton in Hy. right. by left.
    - case_decide; [|by apply elem_of_empty in Hy].
      apply elem_of_singleton in Hy. right. by right. }
  - destruct (Hok w y Hold) as (? & ? & ? & Hsym).
    repeat split; [lia..|done|]. apply elem_of_union. left.
    apply elem_of_union. by left.
  - repeat split; [lia..|]. apply elem_of_union. right.
    rewrite decide_True by done. by apply elem_of_singleton.
  - repeat split; [lia..|]. apply elem_of_union. left.
    apply elem_of_union. right.
    rewrite decide_True by done. by apply elem_of_singleton.
Qed.

Lemma draw_rows_ok (p : float) (n : Z) (us : list Z)
    (adj adj' : gmap Z (gset Z)) (rng rng' : rng_state) :
  (∀ u, u ∈ us → 0 ≤ u < n) →
  adjacency_ok n adj →
  draw_rows p n us adj rng = Ok (adj', rng') →
  adjacency_ok n adj'.
Proof.
  revert adj rng. induction us as [|u us IH]; intros adj rng Hus Hok.
  { by intros [= <- _]. }
  cbn [draw_rows]. intros Hrun.
  apply bind_Ok in Hrun as ([adj1 rng1] & Hrow & Hrun).
  apply (IH adj1 rng1); [intros u' ?; apply Hus; by right| |done].
  apply (draw_edges_ok p n u (range (u + 1) n) adj adj1 rng rng1);
    [apply Hus; left| |done|done].
  intros v Hv. apply elem_of_range in Hv.
  specialize (Hus u). rewrite elem_of_cons in Hus. lia.
Qed.

(** Every graph that the generator returns has the size asked for and
    satisfies [graph_wf]. *)
Lemma generated_graph_wf (entropy : rng_state) (vertex_count : Z) (p : float)
    (seed : option Z) (g : Graph) :
  generate_erdos_renyi_graph entropy vertex_count p seed = Ok g →
  n g = vertex_count ∧ graph_wf g.
Proof.
  unfold generate_erdos_renyi_graph. destruct (negb _); [done|].
  intros Hrun. apply bind_Ok in Hrun as ([adj rng] & Hrows & [= <-]).
  split; [done|].
  apply draw_rows_ok in Hrows.
  - split.
    + intros v u Hu. by destruct (Hrows v u Hu) as (? & ? & _).
    + intros v u Hu. by destruct (Hrows v u Hu) as (_ & _ & _ & ?).
    + intros v Hv. by destruct (Hrows v v Hv) as (_ & _ & ? & _).
  - intros u Hu. by apply elem_of_range in Hu.
  - intros w x Hx. unfold empty_adjacency in Hx.
    destruct (list_to_map _ !! w) as [s|] eqn:Hs;
      [|by apply elem_of_empty in Hx].
    apply elem_of_list_to_map_2, list_elem_of_fmap in Hs as (y & [= _ ->] & _).
    by apply elem_of_empty in Hx.
Qed.

(** C7 (determinism). With a seed, the generated graph does not depend
    on the entropy that an unseeded generator would read: two calls with
    the same [(n, p, seed)] return the same result. [greedy_msc] reads a
    graph through [n] and [neighbors] only: on the same graph it returns
    the same result. With a base seed, a batch does not depend on the
    entropy either, it has [count] graphs, and the one at index [i] is the
    graph that [generate_erdos_renyi_graph] returns for seed
    [base_seed + i]. *)
Theorem generation_and_greedy_are_deterministic :
  (∀ (entropy1 entropy2 : rng_state) n p seed,
     generate_erdos_renyi_graph entropy1 n p (Some seed)
     = generate_erdos_renyi_graph entropy2 n p (Some seed))
  ∧ (∀ g1 g2 : Graph,
       n g1 = n g2 →
       (∀ v, neighbors g1 v = neighbors g2 v) →
       greedy_msc g1 = greedy_msc g2)
  ∧ (∀ (entropy1 entropy2 : nat → rng_state) count n p base_seed,
       generate_random_graphs entropy1 count n p (Some base_seed)
       = generate_random_graphs entropy2 count n p (Some base_seed)
       ∧ (∀ gs,
            generate_random_graphs entropy1 count n p (Some base_seed)
            = Ok gs →
            length gs = Z.to_nat count
            ∧ (∀ (i : nat) g (entropy : rng_state),
                 gs !! i = Some g →
                 generate_erdos_renyi_graph entropy n p
                   (Some (base_seed + Z.of_nat i)) = Ok g))).
Proof.
  split; [done|]. split; [apply greedy_msc_ext|].
  intros entropy1 entropy2 count n p base_seed.
  unfold generate_random_graphs. split.
  - apply generate_each_seeded. apply Forall_fmap, Forall_true.
    intros i. by eexists.
  - intros gs Hrun. apply generate_each_lookup in Hrun as [Hlen Hlook].
    rewrite length_fmap in Hlen. unfold range in *.
    rewrite length_seqZ in Hlen. split; [by rewrite Hlen, Z.sub_0_r|].
    intros i g entropy Hg.
    assert (i < length gs)%nat as Hi by by eapply lookup_lt_Some.
    rewrite <- (Hlook i (Some (base_seed + Z.of_nat i)) g); [done| |done].
    rewrite list_lookup_fmap, lookup_seqZ_lt by lia. done.
Qed.

(** C9 (edge probability). When [0.0 <= p] or [p <= 1.0] fails (also for
    a NaN), [generate_erdos_renyi_graph] raises the [ValueError] of its
    first line, for every [n] and seed; when both hold it returns a
    graph, for every [n] and seed. *)
Theorem p_outside_unit_interval_is_rejected (entropy : rng_state)
    (n : Z) (p : float) (seed : option Z) :
  (PrimFloat.leb 0 p = false ∨ PrimFloat.leb p 1 = false →
   generate_erdos_renyi_graph entropy n p seed
   = Raise (ValueError "p must be in [0, 1]"))
  ∧ (PrimFloat.leb 0 p = true ∧ PrimFloat.leb p 1 = true →
     ∃ g, generate_erdos_renyi_graph entropy n p seed = Ok g).
Proof.
  split.
  - intros Hp. unfold generate_erdos_renyi_graph, in_unit_interval.
    by destruct Hp as [-> | ->]; [|rewrite andb_false_r].
  - intros [Hlo Hhi].
    destruct (generate_erdos_renyi_graph_returns entropy n p seed)
      as [adj Hrun].
    + unfold in_unit_interval. by rewrite Hlo, Hhi.
    + by eexists.
Qed.

(** C6, as amended. The vertex count is not validated: for a negative
    [n] and [p] in range, [generate_erdos_renyi_graph] returns the graph
    with that [n] and an empty adjacency dictionary. *)
Theorem negative_vertex_count_gives_empty_graph (entropy : rng_state)
    (n : Z) (p : float) (seed : option Z) :
  n < 0 → in_unit_interval p = true →
  generate_erdos_renyi_graph entropy n p seed = Ok {| n := n; adj := ∅ |}.
Proof.
  intros Hn Hp. unfold generate_erdos_renyi_graph. rewrite Hp. cbn [negb].
  unfold empty_adjacency, range.
  replace (n - 0) with n by lia.
  rewrite seqZ_nil by lia. done.
Qed.

End graph_generation_facts.

(** ** The boolean checks are sound *)

Lemma neighbors_lookup (g : Graph) (v u : Z) :
  u ∈ neighbors g v → ∃ s, adj g !! v = Some s ∧ u ∈ s.
Proof.
  unfold neighbors. destruct (adj g !! v) as [s|]; simpl; [by exists s|].
  intros Hu. by apply elem_of_empty in Hu.
Qed.

Lemma graph_wfb_sound (g : Graph) : graph_wfb g = true → graph_wf g.
Proof.
  intros Hb. apply bool_decide_eq_true in Hb.
  assert (∀ v u, u ∈ neighbors g v →
            (0 ≤ v < n g) ∧ (0 ≤ u < n g) ∧ v ∈ neighbors g u ∧ u ≠ v) as Hall.
  { intros v u Hu. apply neighbors_lookup in Hu as (s & Hs & Hu).
    by apply (Hb v s Hs u). }
  split.
  - intros v u Hu. destruct (Hall v u Hu) as (? & ? & _). done.
  - intros v u Hu. by destruct (Hall v u Hu) as (_ & _ & ? & _).
  - intros v Hv. by destruct (Hall v v Hv) as (_ & _ & _ & ?).
Qed.

Lemma total_coloringb_sound (g : Graph) (coloring : gmap Z Z) :
  total_coloringb g coloring = true → total_coloring g coloring.
Proof.
  intros Hb v Hv. apply bool_decide_eq_true in Hb.
  rewrite Forall_forall in Hb. by apply Hb, elem_of_range.
Qed.

Lemma feasibleb_sound (g : Graph) (coloring : gmap Z Z) :
  feasibleb g coloring = true → feasible g coloring.
Proof.
  intros Hb v u Hu. apply bool_decide_eq_true in Hb.
  apply neighbors_lookup in Hu as (s & Hs & Hu).
  specialize (Hb v s Hs u Hu). unfold differ in Hb.
  destruct (coloring !! v) as [cv|], (coloring !! u) as [cu|]; try done.
  apply bool_decide_eq_true in Hb. by exists cv, cu.
Qed.

Lemma path4_wf : graph_wf path4.
Proof. apply graph_wfb_sound. by vm_compute. Qed.

Lemma rising_coloring_total : total_coloring path4 rising_coloring.
Proof. apply total_coloringb_sound. by vm_compute. Qed.

Lemma rising_coloring_feasible : feasible path4 rising_coloring.
Proof. apply feasibleb_sound. by vm_compute. Qed.

Lemma elements_perm (X : gset Z) : elements X ≡ₚ elements X.
Proof. done. Qed.

(** ** The tabu search reads the graph through [n] and the enumerated
    neighbor sets only *)

Section tabu_search_ext.
Context (iter1 iter2 : gset Z → list Z) (g1 g2 : Graph).
Hypothesis same_n : n g1 = n g2.
Hypothesis same_neighbors :
  ∀ v, iter1 (neighbors g1 v) = iter2 (neighbors g2 v).

Lemma candidate_ext st it v current_color new_color :
  candidate iter1 g1 st it v current_color new_color
  = candidate iter2 g2 st it v current_color new_color.
Proof. unfold candidate. by rewrite same_neighbors. Qed.

Lemma scan_colors_ext st it v current_color colors best_move :
  scan_colors iter1 g1 st it v current_color colors best_move
  = scan_colors iter2 g2 st it v current_color colors best_move.
Proof.
  revert best_move. induction colors as [|c colors IH]; intros bm; [done|].
  cbn [scan_colors]. rewrite candidate_ext.
  destruct (candidate iter2 g2 _ _ _ _ _); cbn [mbind outcome_bind]; auto.
Qed.

Lemma scan_vertices_ext st it vertices best_move :
  scan_vertices iter1 g1 st it vertices best_move
  = scan_vertices iter2 g2 st it vertices best_move.
Proof.
  revert best_move. induction vertices as [|v vs IH]; intros bm; [done|].
  cbn [scan_vertices]. destruct (getitem _ v); cbn [mbind outcome_bind]; auto.
  rewrite scan_colors_ext.
  destruct (scan_colors iter2 g2 _ _ _ _ _ _); cbn [mbind outcome_bind]; auto.
Qed.

Lemma iterate_ext config st :
  iterate iter1 config g1 st = iterate iter2 config g2 st.
Proof. unfold iterate. by rewrite scan_vertices_ext, same_n. Qed.

Lemma tabu_loop_ext fuel config st :
  tabu_loop iter1 fuel config g1 st = tabu_loop iter2 fuel config g2 st.
Proof.
  revert st. induction fuel as [|fuel IH]; intros st; [done|].
  cbn [tabu_loop]. rewrite iterate_ext.
  destruct (loop_cond config st); [|done].
  destruct (iterate iter2 config g2 st) as [[st'|]|e|];
    cbn [mbind outcome_bind]; auto.
Qed.

Lemma tabu_search_msc_ext initial_coloring config :
  tabu_search_msc iter1 g1 initial_coloring config
  = tabu_search_msc iter2 g2 initial_coloring config.
Proof. unfold tabu_search_msc. by rewrite tabu_loop_ext. Qed.

End tabu_search_ext.

(** ** Boundary: no edges *)

(** C8 (empty edge set). On a graph with ten vertices and no edge,
    [greedy_msc] colors every vertex with 1 and returns 10, and
    [tabu_search_msc], started from that coloring with the default
    configuration, returns the same coloring and 10, whatever the order in
    which sets are iterated. *)
Theorem empty_graph_keeps_all_ones (set_iter : gset Z → list Z) (g : Graph) :
  (∀ X, set_iter X ≡ₚ elements X) →
  n g = 10 → (∀ v, neighbors g v = ∅) →
  greedy_msc g = Ok (all_ones, 10)
  ∧ tabu_search_msc set_iter g all_ones None = Ok (all_ones, 10).
Proof.
  intros Hperm Hn Hnb. split.
  - rewrite (greedy_msc_ext g empty10); [by vm_compute|done|].
    intros v. by rewrite Hnb.
  - rewrite (tabu_search_msc_ext set_iter elements g empty10);
      [by vm_compute|done|].
    intros v. rewrite Hnb. apply Permutation_nil_r. by rewrite Hperm.
Qed.

Lemma empty_graph_keeps_all_ones_witness :
  n empty10 = 10 ∧ (∀ v, neighbors empty10 v = ∅)
  ∧ greedy_msc empty10 = Ok (all_ones, 10)
  ∧ tabu_search_msc elements empty10 all_ones None = Ok (all_ones, 10).
Proof.
  split; [reflexivity|]. split; [reflexivity|].
  apply (empty_graph_keeps_all_ones elements empty10 elements_perm);
    reflexivity.
Defined.

(** ** The theorems at concrete inputs *)

Lemma tabu_search_msc_non_regression_witness :
  graph_wf path4 ∧ total_coloring path4 rising_coloring
  ∧ ∃ coloring value,
      tabu_search_msc elements path4 rising_coloring None
        = Ok (coloring, value)
      ∧ value ≤ sum_values rising_coloring.
Proof.
  split; [exact path4_wf|]. split; [exact rising_coloring_total|].
  exact (tabu_search_msc_non_regression elements elements_perm path4
           rising_coloring None path4_wf rising_coloring_total).
Defined.

Lemma outputs_are_feasible_witness :
  graph_wf path4
  ∧ (∃ coloring total,
       greedy_msc path4 = Ok (coloring, total) ∧ feasible path4 coloring)
  ∧ (∀ initial_coloring config,
       total_coloring path4 initial_coloring →
       feasible path4 initial_coloring →
       ∃ coloring value,
         tabu_search_msc elements path4 initial_coloring config
           = Ok (coloring, value)
         ∧ feasible path4 coloring).
Proof.
  split; [exact path4_wf|].
  exact (outputs_are_feasible elements elements_perm path4 path4_wf).
Defined.

Lemma returned_value_is_sum_of_colors_witness :
  graph_wf path4 ∧ total_coloring path4 rising_coloring
  ∧ (∃ coloring value,
       tabu_search_msc elements path4 rising_coloring None
         = Ok (coloring, value)
       ∧ value = sum_values coloring)
  ∧ (∀ st, rtc (step elements default_config path4)
             (initial_state rising_coloring) st →
       current_value st = sum_values (current_coloring st)
       ∧ best_value st = sum_values (best_coloring st)).
Proof.
  split; [exact path4_wf|]. split; [exact rising_coloring_total|].
  exact (returned_value_is_sum_of_colors elements elements_perm path4
           rising_coloring None path4_wf rising_coloring_total).
Defined.

Lemma no_pass_returns_initial_coloring_witness :
  (max_iterations no_iterations ≤ 0 ∨ max_no_improve no_iterations ≤ 0)
  ∧ (∀ fuel, tabu_loop elements fuel no_iterations path4
               (initial_state rising_coloring)
             = Ok (initial_state rising_coloring))
  ∧ tabu_search_msc elements path4 rising_coloring (Some no_iterations)
    = Ok (rising_coloring, sum_values rising_coloring).
Proof.
  assert (max_iterations no_iterations ≤ 0 ∨ max_no_improve no_iterations ≤ 0)
    as Hcfg by (left; reflexivity).
  split; [exact Hcfg|].
  exact (no_pass_returns_initial_coloring elements path4 rising_coloring
           no_iterations Hcfg).
Defined.

(** On the path, the first pass moves vertex 3 from color 4 to color 1 and
    the second moves vertex 2 from 3 to 4; in the third pass the move of
    vertex 3 back to color 4 is tabu (until iteration 8). *)
Lemma tabu_respects_tenure_witness :
  let st0 := initial_state rising_coloring in
  let st1 := after_passes elements default_config path4 1 st0 in
  let st2 := after_passes elements default_config path4 2 st0 in
  step elements default_config path4 st0 st1
  ∧ current_coloring st0 !! 3 = Some 4
  ∧ current_coloring st1 !! 3 = Some 1
  ∧ rtc (step elements default_config path4) st1 st2
  ∧ iteration st2 + 1 ≤ iteration st1 + tabu_tenure default_config
  ∧ iteration st2 + 1 ≤ default (-1) (tabu st2 !! (3, 4))
  ∧ (∀ current_color new_value,
       candidate elements path4 st2 (iteration st2 + 1) 3 current_color 4
         = Ok (Some new_value) →
       new_value < best_value st2).
Proof.
  intros st0 st1 st2.
  assert (step elements default_config path4 st0 st1) as H01
    by (split; vm_compute; reflexivity).
  assert (step elements default_config path4 st1 st2) as H12
    by (split; vm_compute; reflexivity).
  assert (rtc (step elements default_config path4) st1 st2) as Hrun
    by (eapply rtc_l; [exact H12|apply rtc_refl]).
  assert (current_coloring st0 !! 3 = Some 4) as Ha by (vm_compute; reflexivity).
  assert (current_coloring st1 !! 3 = Some 1) as Hb by (vm_compute; reflexivity).
  assert (iteration st2 + 1 ≤ iteration st1 + tabu_tenure default_config)
    as Hwithin by (vm_compute; discriminate).
  assert (4 ≠ 1) as Hab by discriminate.
  split; [exact H01|]. split; [exact Ha|]. split; [exact Hb|].
  split; [exact Hrun|]. split; [exact Hwithin|].
  exact (tabu_respects_tenure elements default_config path4 st0 st1 st2 3 4 1
           H01 Ha Hb Hab Hrun Hwithin).
Defined.

(** C6, refuted as stated: a negative vertex count with [p] in range does
    not raise; the call returns a graph. *)
Lemma negative_vertex_count_is_not_rejected :
  generate_erdos_renyi_graph (H := alternating_source) 0%nat (-1) 0.5%float
    (Some 42)
  = Ok {| n := -1; adj := ∅ |}.
Proof. vm_compute. reflexivity. Qed.

Lemma negative_vertex_count_gives_empty_graph_witness :
  -1 < 0 ∧ in_unit_interval 0.5%float = true
  ∧ generate_erdos_renyi_graph (H := alternating_source) 0%nat (-1) 0.5%float
      None
    = Ok {| n := -1; adj := ∅ |}.
Proof.
  assert (-1 < 0) as Hn by reflexivity.
  assert (in_unit_interval 0.5%float = true) as Hp by reflexivity.
  split; [exact Hn|]. split; [exact Hp|].
  exact (negative_vertex_count_gives_empty_graph (H := alternating_source)
           0%nat (-1) 0.5%float None Hn Hp).
Defined.

(** ** The experiment: generate, construct, improve *)

(** The chain of [run_experiment] on one generated graph: the greedy
    constructor and then the tabu search return, the final coloring is
    feasible, and its value is the sum of its colors and at most the greedy
    sum. *)
Lemma generated_graph_pipeline `{RandomSource} (set_iter : gset Z → list Z)
    (entropy : rng_state) (vertex_count : Z) (p : float) (seed : option Z)
    (config : option TabuSearchConfig) (g : Graph) :
  (∀ X, set_iter X ≡ₚ elements X) →
  generate_erdos_renyi_graph entropy vertex_count p seed = Ok g →
  ∃ greedy_coloring greedy_sum coloring value,
    greedy_msc g = Ok (greedy_coloring, greedy_sum)
    ∧ tabu_search_msc set_iter g greedy_coloring config = Ok (coloring, value)
    ∧ feasible g coloring
    ∧ value = sum_values coloring
    ∧ value ≤ greedy_sum.
Proof.
  intros Hperm Hgen. apply generated_graph_wf in Hgen as [_ Hwf].
  destruct (greedy_msc_feasible g Hwf) as (c0 & s0 & Hgreedy & Htot & Hfeas).
  destruct (tabu_search_msc_feasible set_iter Hperm g c0 config
              Hwf Htot Hfeas) as (c & v & Htabu & Hc).
  destruct (tabu_search_msc_Ok set_iter g c0 c config v Htabu) as [Hv Hle].
  exists c0, s0, c, v. repeat split; [done..|].
  unfold greedy_msc in Hgreedy.
  apply bind_Ok in Hgreedy as (c0' & _ & [= <- <-]). done.
Qed.

(** ** Concrete runs *)

Example sorted_vertices_path4 : sorted_vertices path4 = [1; 2; 0; 3].
Proof. by vm_compute. Qed.

Example greedy_msc_path4 :
  greedy_msc path4 = Ok (list_to_map [(0, 2); (1, 1); (2, 2); (3, 1)], 6).
Proof. by vm_compute. Qed.

Example tabu_search_msc_path4 :
  tabu_search_msc elements path4 rising_coloring None
  = Ok (list_to_map [(0, 2); (1, 1); (2, 2); (3, 1)], 6).
Proof. by vm_compute. Qed.

(** The first pass on ten isolated vertices does apply a move (vertex 0
    takes color 2, the objective rises to 11): the incumbent is what keeps
    the result at the all-ones coloring. *)
Example first_pass_on_empty10 :
  let st := after_passes elements default_config empty10 1
              (initial_state all_ones) in
  current_coloring st !! 0 = Some 2 ∧ current_value st = 11
  ∧ best_coloring st = all_ones ∧ best_value st = 10
  ∧ tabu st !! (0, 1) = Some 8.
Proof. by vm_compute. Qed.

Example generate_three_vertices :
  generate_erdos_renyi_graph (H := alternating_source) 0%nat 3 0.5%float
    (Some 0)
  = Ok {| n := 3;
          adj := list_to_map [(0, {[1]}); (1, {[0; 2]}); (2, {[1]})] |}.
Proof. by vm_compute. Qed.

Example generate_rejects_large_p :
  generate_erdos_renyi_graph (H := alternating_source) 0%nat 3 1.5%float
    (Some 0)
  = Raise (ValueError "p must be in [0, 1]").
Proof. by vm_compute. Qed.

Example generate_rejects_nan :
  generate_erdos_renyi_graph (H := alternating_source) 0%nat 3 nan (Some 0)
  = Raise (ValueError "p must be in [0, 1]").
Proof. by vm_compute. Qed.

Example generate_batch_of_two :
  generate_random_graphs (H := alternating_source) (λ _, 0%nat) 2 2
    0.5%float (Some 0)
  = Ok [ {| n := 2; adj := list_to_map [(0, {[1]}); (1, {[0]})] |};
         {| n := 2; adj := list_to_map [(0, ∅); (1, ∅)] |} ].
Proof. by vm_compute. Qed.

(** * Further properties of the code *)

(** ** Color counts *)

Lemma max_values_spec (coloring : gmap Z Z) :
  (∀ v c, coloring !! v = Some c → c ≤ max_values coloring)
  ∧ (coloring ≠ ∅ → ∃ v, coloring !! v = Some (max_values coloring))
  ∧ (coloring = ∅ → max_values coloring = 0).
Proof.
  unfold max_values.
  pose (P := λ (r : option Z) (m : gmap Z Z),
          match r with
          | None => m = ∅
          | Some mx => (∀ v c, m !! v = Some c → c ≤ mx)
                       ∧ ∃ v, m !! v = Some mx
          end).
  assert (P (map_fold (λ _ c acc, Some (from_option (Z.max c) c acc))
               None coloring) coloring) as HP.
  { apply (map_fold_weak_ind P); [done|].
    intros v c m r Hfresh Hr. destruct r as [mx|]; simpl in *.
    - destruct Hr as [Hub [w Hw]]. split.
      + intros v' c' Hv'. destruct (decide (v = v')) as [->|Hne].
        * rewrite lookup_insert_eq in Hv'. simplify_eq. lia.
        * rewrite lookup_insert_ne in Hv' by done.
          specialize (Hub v' c' Hv'). lia.
      + destruct (Z.max_spec c mx) as [[_ ->]|[_ ->]].
        * exists w. rewrite lookup_insert_ne; [done|]. intros ->. congruence.
        * exists v. apply lookup_insert_eq.
    - subst m. split.
      + intros v' c' Hv'. apply lookup_insert_Some in Hv' as [[_ ->]|[_ Hv']];
          [lia|by rewrite lookup_empty in Hv'].
      + exists v. apply lookup_insert_eq. }
  destruct (map_fold _ None coloring) as [mx|]; simpl in *.
  - destruct HP as [Hub Hw]. split; [done|]. split; [done|].
    intros ->. destruct Hw as [w Hw]. by rewrite lookup_empty in Hw.
  - subst coloring. split; [|done]. intros v c Hv. by rewrite lookup_empty in Hv.
Qed.

Lemma max_values_bound (coloring : gmap Z Z) (v c : Z) :
  coloring !! v = Some c → c ≤ max_values coloring.
Proof. apply max_values_spec. Qed.

(** [max(coloring.values()) if coloring else 0], the color count of
    [tabu_search_msc] and of [run_experiment]: an upper bound of every
    color, attained by some vertex unless the coloring is empty, and 0 on
    the empty coloring. *)
Theorem max_values_is_maximum (coloring : gmap Z Z) :
  (∀ v c, coloring !! v = Some c → c ≤ max_values coloring)
  ∧ (coloring ≠ ∅ → ∃ v, coloring !! v = Some (max_values coloring))
  ∧ (coloring = ∅ → max_values coloring = 0).
Proof. apply max_values_spec. Qed.

(** ** The greedy constructor: bounds on the colors *)

Lemma size_list_to_set_omap_le (f : Z → option Z) (l : list Z) :
  (size (list_to_set (C := gset Z) (omap f l)) ≤ length l)%nat.
Proof.
  induction l as [|x l IH]; cbn [omap list_omap length].
  { by rewrite list_to_set_nil, size_empty. }
  destruct (f x) as [y|]; [|lia].
  rewrite list_to_set_cons, size_union_alt, size_singleton.
  assert (size (list_to_set (omap f l) ∖ ({[y]} : gset Z))
          ≤ size (list_to_set (C := gset Z) (omap f l)))%nat.
  { apply subseteq_size. intros z. rewrite elem_of_difference. tauto. }
  lia.
Qed.

Lemma size_set_omap_le (f : Z → option Z) (X : gset Z) :
  (size (set_omap (D := gset Z) f X) ≤ size X)%nat.
Proof.
  unfold set_omap. change (size X) with (length (elements X)).
  apply size_list_to_set_omap_le.
Qed.

Lemma least_free_color_le_degree (g : Graph) (coloring : gmap Z Z)
    (earlier : list Z) (v c : Z) :
  least_free_color g coloring earlier v c → 1 ≤ c ≤ degree g v + 1.
Proof.
  intros (Hpos & _ & Hused). split; [done|].
  assert (list_to_set (seqZ 1 (c - 1))
          ⊆ set_omap (D := gset Z) (λ u, coloring !! u) (neighbors g v))
    as Hsub.
  { intros c' Hc'. rewrite elem_of_list_to_set, elem_of_seqZ in Hc'.
    destruct (Hused c') as (u & Hu & _ & Hcu); [lia|].
    apply elem_of_set_omap. by exists u. }
  apply subseteq_size in Hsub.
  rewrite size_list_to_set, length_seqZ in Hsub by apply NoDup_seqZ.
  pose proof (size_set_omap_le (λ u, coloring !! u) (neighbors g v)).
  unfold degree. lia.
Qed.

(** For every graph, every color that [greedy_msc] assigns is at least 1
    and at most the degree of its vertex plus 1. *)
Theorem greedy_msc_color_bounds (g : Graph) :
  ∃ coloring total,
    greedy_msc g = Ok (coloring, total)
    ∧ ∀ v c, coloring !! v = Some c → 1 ≤ c ≤ degree g v + 1.
Proof.
  destruct (greedy_msc_spec g) as (coloring & Hrun & Hdom & _ & Hspec).
  exists coloring, (sum_values coloring). split; [done|].
  intros v c Hv.
  assert (v ∈ sorted_vertices g) as Hin.
  { rewrite sorted_vertices_perm. apply (elem_of_list_to_set (C := gset Z)).
    rewrite <- Hdom. by apply elem_of_dom_2 in Hv. }
  apply list_elem_of_split in Hin as (pre & post & Hsplit).
  destruct (Hspec pre v post Hsplit) as (c' & Hc' & Hleast).
  simplify_eq. by eapply least_free_color_le_degree.
Qed.

(** ** Graph generation: shape of the result *)

Section graph_generation_more.
Context `{RandomSource}.

Lemma draw_edges_pairs (p : float) (u : Z) (vs : list Z)
    (adj : gmap Z (gset Z)) (rng : rng_state) :
  draw_edges p u vs adj rng = draw_pairs p ((λ v, (u, v)) <$> vs) adj rng.
Proof.
  revert adj rng. induction vs as [|v vs IH]; intros adj rng; [done|].
  cbn [draw_edges fmap list_fmap draw_pairs].
  destruct (random rng) as [x rng1]. destruct (PrimFloat.ltb x p); [|apply IH].
  destruct (add_neighbor adj u v) as [adj1|e|]; cbn [mbind outcome_bind];
    [|done..].
  destruct (add_neighbor adj1 v u) as [adj2|e|]; cbn [mbind outcome_bind];
    [apply IH|done..].
Qed.

Lemma draw_pairs_app (p : float) (ps1 ps2 : list (Z * Z))
    (adj : gmap Z (gset Z)) (rng : rng_state) :
  draw_pairs p (ps1 ++ ps2) adj rng
  = '(adj', rng') ← draw_pairs p ps1 adj rng; draw_pairs p ps2 adj' rng'.
Proof.
  revert adj rng. induction ps1 as [|[u v] ps1 IH]; intros adj rng; [done|].
  cbn [app draw_pairs]. destruct (random rng) as [x rng1].
  destruct (PrimFloat.ltb x p); [|apply IH].
  destruct (add_neighbor adj u v) as [adj1|e|]; cbn [mbind outcome_bind];
    [|done..].
  destruct (add_neighbor adj1 v u) as [adj2|e|]; cbn [mbind outcome_bind];
    [apply IH|done..].
Qed.

Lemma draw_rows_pairs (p : float) (n : Z) (us : list Z)
    (adj : gmap Z (gset Z)) (rng : rng_state) :
  draw_rows p n us adj rng
  = draw_pairs p (u ← us; (λ v, (u, v)) <$> range (u + 1) n) adj rng.
Proof.
  revert adj rng. induction us as [|u us IH]; intros adj rng; [done|].
  cbn [draw_rows mbind list_bind]. rewrite draw_pairs_app, draw_edges_pairs.
  destruct (draw_pairs p _ adj rng) as [[adj1 rng1]|e|];
    cbn [mbind outcome_bind]; [apply IH|done..].
Qed.

(** What a run of the loop adds to the neighbor sets: the pairs whose
    draw was below [p], in both directions. *)
Lemma draw_pairs_neighbors (p : float) (pairs : list (Z * Z))
    (adj adj' : gmap Z (gset Z)) (rng rng' : rng_state) :
  draw_pairs p pairs adj rng = Ok (adj', rng') →
  ∀ w x, x ∈ default ∅ (adj' !! w) ↔
    x ∈ default ∅ (adj !! w)
    ∨ ∃ (k : nat) u v,
        pairs !! k = Some (u, v)
        ∧ PrimFloat.ltb (nth_draw k rng) p = true
        ∧ ((w = u ∧ x = v) ∨ (w = v ∧ x = u)).
Proof.
  revert adj rng. induction pairs as [|[u v] pairs IH]; intros adj rng Hrun w x.
  { injection Hrun as <- _. split; [by left|].
    intros [?|(k & ? & ? & Hk & _)]; [done|by rewrite lookup_nil in Hk]. }
  cbn [draw_pairs] in Hrun.
  assert (∀ k, nth_draw (S k) rng = nth_draw k (random rng).2) as Hnext by done.
  assert (nth_draw 0 rng = (random rng).1) as Hfirst by done.
  destruct (random rng) as [y rng1] eqn:Hr.
  cbn [fst snd] in Hnext, Hfirst.
  destruct (PrimFloat.ltb y p) eqn:Hy.
  - apply bind_Ok in Hrun as (adj1 & H1 & Hrun).
    apply bind_Ok in Hrun as (adj2 & H2 & Hrun).
    rewrite (IH _ _ Hrun w x).
    rewrite (add_neighbor_Ok _ _ _ _ H2), (add_neighbor_Ok _ _ _ _ H1).
    rewrite !elem_of_union. split.
    + intros [[[Hold|Hx]|Hx]|(k & u' & v' & Hk & Hd & Hwx)].
      * by left.
      * case_decide; [|by apply elem_of_empty in Hx].
        apply elem_of_singleton in Hx. right. exists 0%nat, u, v.
        rewrite Hfirst. split; [done|]. split; [done|]. by left.
      * case_decide; [|by apply elem_of_empty in Hx].
        apply elem_of_singleton in Hx. right. exists 0%nat, u, v.
        rewrite Hfirst. split; [done|]. split; [done|]. by right.
      * right. exists (S k), u', v'. by rewrite Hnext.
    + intros [Hold|(k & u' & v' & Hk & Hd & Hwx)]; [by left; left; left|].
      destruct k as [|k].
      * injection Hk as <- <-. left. destruct Hwx as [[-> ->]|[-> ->]].
        -- left. right. rewrite decide_True by done. by apply elem_of_singleton.
        -- right. rewrite decide_True by done. by apply elem_of_singleton.
      * right. exists k, u', v'. by rewrite <- Hnext.
  - rewrite (IH _ _ Hrun w x). split.
    + intros [Hold|(k & u' & v' & Hk & Hd & Hwx)]; [by left|].
      right. exists (S k), u', v'. by rewrite Hnext.
    + intros [Hold|(k & u' & v' & Hk & Hd & Hwx)]; [by left|].
      destruct k as [|k].
      * rewrite Hfirst in Hd. congruence.
      * right. exists k, u', v'. by rewrite <- Hnext.
Qed.

Lemma empty_adjacency_neighbors (n w : Z) :
  default ∅ (empty_adjacency n !! w) = ∅.
Proof.
  unfold empty_adjacency.
  destruct (list_to_map _ !! w) as [s|] eqn:Hs; [|done].
  by apply elem_of_list_to_map_2, list_elem_of_fmap in Hs as (y & [= _ ->] & _).
Qed.

(** Every graph that [generate_erdos_renyi_graph] returns has the vertex
    count asked for, has exactly the vertices of [range(n)] as keys of its
    adjacency dictionary, and satisfies the invariants of the graph class:
    neighbors in range, symmetric adjacency, no self-loop. *)
Theorem generated_graph_is_well_formed (entropy : rng_state)
    (vertex_count : Z) (p : float) (seed : option Z) (g : Graph) :
  generate_erdos_renyi_graph entropy vertex_count p seed = Ok g →
  n g = vertex_count
  ∧ dom (adj g) = list_to_set (range 0 vertex_count)
  ∧ graph_wf g.
Proof.
  intros Hgen. destruct (generated_graph_wf _ _ _ _ _ Hgen) as [Hn Hwf].
  split; [done|]. split; [|done].
  unfold generate_erdos_renyi_graph in Hgen. destruct (negb _); [done|].
  apply bind_Ok in Hgen as ([adj1 rng1] & Hrows & [= <-]). cbn [adj].
  destruct (draw_rows_returns p vertex_count (range 0 vertex_count)
              (empty_adjacency vertex_count)
              (from_option Random entropy seed)) as (adj2 & rng2 & Hrun & Hdom).
  - intros u Hu. by apply elem_of_range in Hu.
  - intros v Hv. by apply elem_of_dom_empty_adjacency.
  - rewrite Hrun in Hrows. injection Hrows as <- _. rewrite Hdom.
    apply set_eq. intros v.
    by rewrite elem_of_dom_empty_adjacency, elem_of_list_to_set, elem_of_range.
Qed.

Lemma elem_of_vertex_pairs (n u v : Z) :
  (u, v) ∈ vertex_pairs n ↔ 0 ≤ u < v ∧ v < n.
Proof.
  unfold vertex_pairs. rewrite list_elem_of_bind. split.
  - intros (u' & Hv & Hu). apply list_elem_of_fmap in Hv as (v' & [= -> ->] & Hv).
    apply elem_of_range in Hu, Hv. lia.
  - intros Huv. exists u. split; [|apply elem_of_range; lia].
    apply list_elem_of_fmap. exists v. split; [done|]. apply elem_of_range. lia.
Qed.

Lemma NoDup_vertex_pairs (n : Z) : NoDup (vertex_pairs n).
Proof.
  unfold vertex_pairs. apply NoDup_bind; [| |apply NoDup_range].
  - intros u1 u2 [u v] _ _ H1 H2.
    apply list_elem_of_fmap in H1 as (? & [= -> ->] & _).
    by apply list_elem_of_fmap in H2 as (? & [= -> _] & _).
  - intros u _. apply NoDup_fmap_2; [|apply NoDup_range].
    by intros v1 v2 [= ->].
Qed.

(** The edges of a generated graph are the pairs whose draw was below
    [p]. The enumeration [(0,1), (0,2), ..., (1,2), ...] holds each pair
    [u < v] of [range(n)] once; the call of [random()] number [k] decides
    the pair number [k], and [w] and [x] are neighbors exactly when the draw
    of their pair is below [p]. *)
Theorem generated_edges_follow_draws (entropy : rng_state)
    (vertex_count : Z) (p : float) (seed : option Z) (g : Graph) :
  generate_erdos_renyi_graph entropy vertex_count p seed = Ok g →
  NoDup (vertex_pairs vertex_count)
  ∧ (∀ u v, (u, v) ∈ vertex_pairs vertex_count ↔
            0 ≤ u < v ∧ v < vertex_count)
  ∧ (∀ w x, x ∈ neighbors g w ↔
       ∃ (k : nat) u v,
         vertex_pairs vertex_count !! k = Some (u, v)
         ∧ PrimFloat.ltb (nth_draw k (from_option Random entropy seed)) p
           = true
         ∧ ((w = u ∧ x = v) ∨ (w = v ∧ x = u))).
Proof.
  intros Hgen. split; [apply NoDup_vertex_pairs|].
  split; [apply elem_of_vertex_pairs|]. revert Hgen.
  unfold generate_erdos_renyi_graph. destruct (negb _); [done|].
  intros Hgen. apply bind_Ok in Hgen as ([adj1 rng1] & Hrows & [= <-]).
  rewrite draw_rows_pairs in Hrows. intros w x.
  unfold neighbors. cbn [adj].
  rewrite (draw_pairs_neighbors _ _ _ _ _ _ Hrows w x).
  rewrite empty_adjacency_neighbors. split; [|by right].
  intros [Hx|?]; [by apply elem_of_empty in Hx|done].
Qed.

Lemma generate_each_returns (entropy : nat → rng_state) (n : Z) (p : float)
    (k : nat) (seeds : list (option Z)) :
  in_unit_interval p = true →
  ∃ gs, generate_each entropy n p k seeds = Ok gs
        ∧ length gs = length seeds.
Proof.
  intros Hp. revert k. induction seeds as [|s seeds IH]; intros k.
  { by exists []. }
  cbn [generate_each].
  destruct (generate_erdos_renyi_graph_returns (entropy k) n p s Hp)
    as [adj ->].
  cbn [mbind outcome_bind]. destruct (IH (S k)) as (gs & -> & Hlen).
  cbn [mbind outcome_bind]. eexists. split; [done|]. simpl. lia.
Qed.

(** With [p] in range, [generate_random_graphs] returns, with or without
    a base seed, a list of [count] graphs (none for a negative [count]),
    each on [n] vertices and with the invariants of the graph class. *)
Theorem batch_has_count_well_formed_graphs (entropy : nat → rng_state)
    (count vertex_count : Z) (p : float) (base_seed : option Z) :
  in_unit_interval p = true →
  ∃ gs,
    generate_random_graphs entropy count vertex_count p base_seed = Ok gs
    ∧ length gs = Z.to_nat count
    ∧ (∀ g, g ∈ gs → n g = vertex_count ∧ graph_wf g).
Proof.
  intros Hp. unfold generate_random_graphs.
  destruct (generate_each_returns entropy vertex_count p 0
              (match base_seed with
               | None => replicate (Z.to_nat count) None
               | Some b => (λ i, Some (b + i)) <$> range 0 count
               end) Hp) as (gs & Hrun & Hlen).
  exists gs. split; [done|]. split.
  - rewrite Hlen. destruct base_seed.
    + unfold range. rewrite length_fmap, length_seqZ. lia.
    + apply length_replicate.
  - intros g Hg. apply list_elem_of_lookup in Hg as [i Hi].
    destruct (generate_each_lookup _ _ _ _ _ _ Hrun) as [_ Hlook].
    assert (is_Some (match base_seed with
                     | None => replicate (Z.to_nat count) None
                     | Some b => (λ i, Some (b + i)) <$> range 0 count
                     end !! i)) as [s Hs].
    { apply lookup_lt_is_Some. rewrite <- Hlen. by eapply lookup_lt_Some. }
    by apply (generated_graph_wf _ _ _ _ _ (Hlook i s g Hs Hi)).
Qed.

Lemma generate_random_graphs_bad_p (entropy : nat → rng_state)
    (count vertex_count : Z) (p : float) (base_seed : option Z) :
  in_unit_interval p = false →
  (0 < count →
   generate_random_graphs entropy count vertex_count p base_seed
   = Raise (ValueError "p must be in [0, 1]"))
  ∧ (count ≤ 0 →
     generate_random_graphs entropy count vertex_count p base_seed = Ok []).
Proof.
  intros Hp. unfold generate_random_graphs. split; intros Hcount.
  - assert (∃ s seeds,
              match base_seed with
              | None => replicate (Z.to_nat count) None
              | Some b => (λ i, Some (b + i)) <$> range 0 count
              end = s :: seeds) as (s & seeds & ->).
    { destruct base_seed as [b|].
      - unfold range. rewrite seqZ_cons by lia. by eexists _, _.
      - destruct (Z.to_nat count) as [|k] eqn:Hk; [lia|]. by eexists _, _. }
    cbn [generate_each]. unfold generate_erdos_renyi_graph. by rewrite Hp.
  - destruct base_seed as [b|].
    + unfold range. by rewrite seqZ_nil by lia.
    + by replace (Z.to_nat count) with 0%nat by lia.
Qed.

(** With [p] out of range, a batch of at least one graph raises the
    [ValueError] of the first call; a batch of no graph ([count ≤ 0])
    makes no call and returns the empty list: the bad [p] goes
    unnoticed. *)
Theorem batch_with_p_out_of_range (entropy : nat → rng_state)
    (count vertex_count : Z) (p : float) (base_seed : option Z) :
  in_unit_interval p = false →
  (0 < count →
   generate_random_graphs entropy count vertex_count p base_seed
   = Raise (ValueError "p must be in [0, 1]"))
  ∧ (count ≤ 0 →
     generate_random_graphs entropy count vertex_count p base_seed = Ok []).
Proof. apply generate_random_graphs_bad_p. Qed.

End graph_generation_more.

(** ** The tabu search: which move a pass selects *)

Lemma range_sorted (a b : Z) : StronglySorted Z.lt (range a b).
Proof.
  unfold range.
  assert (∀ (k : nat) m, StronglySorted Z.lt (seqZ m (Z.of_nat k))) as Hk.
  { induction k as [|k IH]; intros m.
    - rewrite seqZ_nil by lia. constructor.
    - rewrite seqZ_cons by lia.
      replace (Z.pred (Z.of_nat (S k))) with (Z.of_nat k) by lia.
      constructor; [apply IH|]. apply Forall_seqZ. lia. }
  destruct (decide (b - a ≤ 0)) as [Hle|Hgt].
  - rewrite seqZ_nil by done. constructor.
  - replace (b - a) with (Z.of_nat (Z.to_nat (b - a))) by lia. apply Hk.
Qed.

Section selection_facts.
Context (set_iter : gset Z → list Z) (g : Graph) (st : search_state) (it : Z).

Lemma first_best_equiv (seen seen' : Z * Z → Prop) (best_move : best_move_t) :
  (∀ move, seen move ↔ seen' move) →
  first_best set_iter g st it seen best_move →
  first_best set_iter g st it seen' best_move.
Proof.
  intros Heq. destruct best_move as [[move val]|]; simpl.
  - intros (Hs & Hp & Hbest). split; [by apply Heq|]. split; [done|].
    intros move' val' Hs'. apply Hbest. by apply Heq.
  - intros Hnone move val Hs. apply Hnone. by apply Heq.
Qed.

(** One more move, later in the enumeration than all the moves seen. *)
Lemma first_best_next (seen : Z * Z → Prop) (best_move : best_move_t)
    (v current_color new_color : Z) (r : option Z) :
  (∀ move, seen move → ¬ tuple_le (v, new_color) move) →
  current_coloring st !! v = Some current_color →
  candidate set_iter g st it v current_color new_color = Ok r →
  first_best set_iter g st it seen best_move →
  first_best set_iter g st it (λ move, seen move ∨ move = (v, new_color))
    (match r with
     | None => best_move
     | Some new_value => keep_best best_move v new_color new_value
     end).
Proof.
  intros Hlater Hv Hcand Hbest.
  assert (∀ val, passes set_iter g st it (v, new_color) val → r = Some val)
    as Hfun.
  { intros val (cc & Hcc & Hp). simpl in *. congruence. }
  assert (∀ val, r = Some val → passes set_iter g st it (v, new_color) val)
    as Hpass.
  { intros val ->. by exists current_color. }
  destruct r as [new_value|].
  - unfold keep_best. destruct best_move as [[move val]|]; simpl in *.
    + destruct Hbest as (Hs & Hp & Hmin).
      destruct (decide (new_value < val)) as [Hlt|Hge]; simpl.
      * split; [by right|]. split; [by apply Hpass|].
        intros move' val' [Hs'| ->] Hp'.
        -- destruct (Hmin move' val' Hs' Hp') as [Hle _]. split; lia.
        -- apply Hfun in Hp'. simplify_eq. split; [lia|].
           intros _. unfold tuple_le. simpl. lia.
      * split; [by left|]. split; [done|].
        intros move' val' [Hs'| ->] Hp'; [by apply Hmin|].
        apply Hfun in Hp'. simplify_eq. split; [lia|]. intros _.
        specialize (Hlater move Hs). unfold tuple_le in *. simpl in *. lia.
    + split; [by right|]. split; [by apply Hpass|].
      intros move' val' [Hs'| ->] Hp'; [by destruct (Hbest move' val' Hs')|].
      apply Hfun in Hp'. simplify_eq. split; [lia|].
      intros _. unfold tuple_le. simpl. lia.
  - destruct best_move as [[move val]|]; simpl in *.
    + destruct Hbest as (Hs & Hp & Hmin). split; [by left|]. split; [done|].
      intros move' val' [Hs'| ->] Hp'; [by apply Hmin|].
      by apply Hfun in Hp'.
    + intros move val [Hs| ->] Hp; [by apply (Hbest move val)|].
      by apply Hfun in Hp.
Qed.

Lemma scan_colors_first_best (seen : Z * Z → Prop) (v current_color : Z)
    (colors : list Z) (best_move best_move' : best_move_t) :
  StronglySorted Z.lt colors →
  (∀ move, seen move →
     move.1 < v ∨ (move.1 = v ∧ Forall (λ c, move.2 < c) colors)) →
  current_coloring st !! v = Some current_color →
  first_best set_iter g st it seen best_move →
  scan_colors set_iter g st it v current_color colors best_move
    = Ok best_move' →
  first_best set_iter g st it
    (λ move, seen move ∨ (move.1 = v ∧ move.2 ∈ colors)) best_move'.
Proof.
  intros Hsorted. revert seen best_move.
  induction Hsorted as [|c colors Hsorted IH Hc]; intros seen bm Hseen Hv Hbm Hrun.
  { injection Hrun as <-. eapply first_best_equiv; [|done].
    intros move. split; [by left|]. intros [?|[_ Hin]]; [done|].
    by apply elem_of_nil in Hin. }
  cbn [scan_colors] in Hrun. apply bind_Ok in Hrun as (r & Hcand & Hrun).
  set (seen1 := λ move : Z * Z, seen move ∨ move = (v, c)).
  assert (∀ move, seen1 move →
            move.1 < v ∨ (move.1 = v ∧ Forall (λ c', move.2 < c') colors))
    as Hseen1.
  { intros move [Hs| ->]; simpl.
    - destruct (Hseen _ Hs) as [Hlt|[Heq Hall]]; [by left|].
      right. split; [done|]. by apply Forall_cons in Hall as [_ ?].
    - right. by split. }
  assert (first_best set_iter g st it seen1
            (match r with
             | None => bm
             | Some new_value => keep_best bm v c new_value
             end)) as Hbm1.
  { apply (first_best_next seen bm v current_color c r); [|done..].
    intros move Hs Hle. destruct (Hseen move Hs) as [Hlt|[Heq Hall]];
      unfold tuple_le in Hle; simpl in Hle; [lia|].
    apply Forall_cons in Hall as [Hlt _]. lia. }
  apply (first_best_equiv
           (λ move, seen1 move ∨ (move.1 = v ∧ move.2 ∈ colors)));
    [|by eapply IH].
  intros [v' c']. unfold seen1. simpl. rewrite elem_of_cons. split.
  - intros [[Hs|Heq]|[-> Hin]]; [by left| |by right; split; [|right]].
    injection Heq as -> ->. right. split; [done|by left].
  - intros [Hs|[-> [->|Hin]]]; [by left; left|by left; right|by right].
Qed.

Lemma scan_vertices_first_best (seen : Z * Z → Prop) (vertices : list Z)
    (best_move best_move' : best_move_t) :
  StronglySorted Z.lt vertices →
  (∀ move, seen move → Forall (λ v, move.1 < v) vertices) →
  first_best set_iter g st it seen best_move →
  scan_vertices set_iter g st it vertices best_move = Ok best_move' →
  first_best set_iter g st it
    (λ move, seen move
             ∨ (move.1 ∈ vertices ∧ move.2 ∈ range 1 (max_color st + 2)))
    best_move'.
Proof.
  intros Hsorted. revert seen best_move.
  induction Hsorted as [|v vertices Hsorted IH Hv]; intros seen bm Hseen Hbm Hrun.
  { injection Hrun as <-. eapply first_best_equiv; [|done].
    intros move. split; [by left|]. intros [?|[Hin _]]; [done|].
    by apply elem_of_nil in Hin. }
  cbn [scan_vertices] in Hrun.
  apply bind_Ok in Hrun as (current_color & Hcc & Hrun).
  apply bind_Ok in Hrun as (bm1 & Hcolors & Hrun).
  apply getitem_Ok in Hcc.
  apply (scan_colors_first_best seen) in Hcolors;
    [|apply range_sorted| |done|done].
  2:{ intros move Hs. left. specialize (Hseen move Hs).
      by apply Forall_cons in Hseen as [? _]. }
  set (seen1 := λ move : Z * Z,
         seen move ∨ (move.1 = v ∧ move.2 ∈ range 1 (max_color st + 2)))
    in Hcolors.
  assert (∀ move, seen1 move → Forall (λ v', move.1 < v') vertices) as Hseen1.
  { intros move [Hs|[-> Hin]].
    - specialize (Hseen _ Hs). by apply Forall_cons in Hseen as [_ ?].
    - done. }
  apply (first_best_equiv
           (λ move, seen1 move
                    ∨ (move.1 ∈ vertices
                       ∧ move.2 ∈ range 1 (max_color st + 2))));
    [|by eapply IH].
  intros [v' c']. unfold seen1. simpl. rewrite elem_of_cons. split.
  - intros [[Hs|[-> Hin]]|[Hin1 Hin2]];
      [by left|by right; split; [left|]|by right; split; [right|]].
  - intros [Hs|[[->|Hin1] Hin2]]; [by left; left|by left; right|by right].
Qed.

End selection_facts.

Section tabu_search_more.
Context (set_iter : gset Z → list Z).

Lemma iterate_first_best (config : TabuSearchConfig) (g : Graph)
    (st : search_state) (r : option search_state) :
  iterate set_iter config g st = Ok r →
  ∃ best_move,
    first_best set_iter g st (iteration st + 1) (enumerated g st) best_move
    ∧ match best_move with
      | None => r = None
      | Some ((v, new_color), new_value) =>
          ∃ st', r = Some st'
                 ∧ apply_move config st (iteration st + 1) v new_color new_value
                   = Ok st'
      end.
Proof.
  unfold iterate. intros Hrun.
  apply bind_Ok in Hrun as (best_move & Hscan & Hrun).
  exists best_move. split.
  - apply (scan_vertices_first_best set_iter g st _ (λ _, False)) in Hscan;
      [|apply range_sorted|by intros ? []|by intros ? ? []].
    eapply first_best_equiv; [|exact Hscan].
    intros [v c]. unfold enumerated. simpl. rewrite !elem_of_range.
    split; [intros [[]|?]|right]; lia.
  - destruct best_move as [[[v c] val]|]; [|by injection Hrun as <-].
    apply bind_Ok in Hrun as (st' & Happly & [= <-]). by exists st'.
Qed.

Lemma applied_move_is_first_best_aux (config : TabuSearchConfig) (g : Graph)
    (st st' : search_state) :
  iterate set_iter config g st = Ok (Some st') →
  ∃ v old_color new_color,
    current_coloring st !! v = Some old_color
    ∧ current_coloring st' = <[v := new_color]> (current_coloring st)
    ∧ (1 ≤ new_color ≤ max_color st + 1).
Proof.
  intros Hrun.
  destruct (iterate_first_best _ _ _ _ Hrun) as (best_move & Hbest & Hr).
  destruct best_move as [[[v c] val]|]; [|done].
  destruct Hr as (st1 & [= <-] & Happly).
  destruct Hbest as ([Hv Hc] & (a & Ha & Hcand) & _). simpl in *.
  unfold apply_move, getitem in Happly. rewrite Ha in Happly.
  cbn [mbind outcome_bind] in Happly. injection Happly as <-.
  by exists v, a, c.
Qed.

(** The move that a pass applies is a best-improvement move with the
    first-found tie break: it is one of the enumerated moves (a vertex of
    [range(n)], a color of [1..max_color+1] other than its own) that
    [candidate] lets through; no enumerated move that is let through has a
    lower resulting objective; and among those of equal objective it has
    the least vertex and then the least color. *)
Theorem applied_move_is_first_best (config : TabuSearchConfig) (g : Graph)
    (st st' : search_state) :
  iterate set_iter config g st = Ok (Some st') →
  ∃ v old_color new_color new_value,
    current_coloring st !! v = Some old_color
    ∧ current_coloring st' = <[v := new_color]> (current_coloring st)
    ∧ current_value st' = new_value
    ∧ (0 ≤ v < n g) ∧ (1 ≤ new_color ≤ max_color st + 1)
    ∧ new_color ≠ old_color
    ∧ candidate set_iter g st (iteration st + 1) v old_color new_color
      = Ok (Some new_value)
    ∧ (∀ v' old_color' new_color' new_value',
         0 ≤ v' < n g → 1 ≤ new_color' ≤ max_color st + 1 →
         current_coloring st !! v' = Some old_color' →
         candidate set_iter g st (iteration st + 1) v' old_color' new_color'
           = Ok (Some new_value') →
         new_value ≤ new_value'
         ∧ (new_value' = new_value →
            v < v' ∨ (v = v' ∧ new_color ≤ new_color'))).
Proof.
  intros Hrun.
  destruct (iterate_first_best _ _ _ _ Hrun) as (best_move & Hbest & Hr).
  destruct best_move as [[[v c] val]|]; [|done].
  destruct Hr as (st1 & [= <-] & Happly).
  destruct Hbest as ([Hv Hc] & (a & Ha & Hcand) & Hmin). simpl in *.
  unfold apply_move, getitem in Happly. rewrite Ha in Happly.
  cbn [mbind outcome_bind] in Happly. injection Happly as <-.
  exists v, a, c, val. cbn [current_coloring current_value].
  repeat (split; [done|]). split.
  { by destruct (candidate_Some _ _ _ _ _ _ _ _ Hcand) as [? _]. }
  split; [done|].
  intros v' a' c' val' Hv' Hc' Ha' Hcand'.
  destruct (Hmin (v', c') val') as [Hle Htie].
  - by split.
  - by exists a'.
  - split; [done|]. intros Heq. specialize (Htie Heq).
    unfold tuple_le in Htie. simpl in Htie. lia.
Qed.

(** The loop stops by its [break] only when [candidate] lets none of the
    enumerated moves through. *)
Lemma break_means_no_move (config : TabuSearchConfig) (g : Graph)
    (st : search_state) :
  iterate set_iter config g st = Ok None →
  ∀ v old_color new_color new_value,
    0 ≤ v < n g → 1 ≤ new_color ≤ max_color st + 1 →
    current_coloring st !! v = Some old_color →
    candidate set_iter g st (iteration st + 1) v old_color new_color
    ≠ Ok (Some new_value).
Proof.
  intros Hrun v a c val Hv Hc Ha Hcand.
  destruct (iterate_first_best _ _ _ _ Hrun) as (best_move & Hbest & Hr).
  destruct best_move as [[[v1 c1] val1]|].
  - by destruct Hr as (? & [=] & _).
  - apply (Hbest (v, c) val); [by split|by exists a].
Qed.

(** *** What a result keeps of the initial coloring *)

Lemma iterate_positive (config : TabuSearchConfig) (g : Graph)
    (st st' : search_state) :
  positive_colors (current_coloring st) →
  iterate set_iter config g st = Ok (Some st') →
  positive_colors (current_coloring st').
Proof.
  intros Hpos Hrun.
  apply applied_move_is_first_best_aux in Hrun
    as (v & a & c & Ha & -> & Hc).
  intros v' c' Hv'. apply lookup_insert_Some in Hv' as [[_ <-]|[_ Hv']];
    [lia|by eapply Hpos].
Qed.

(** Whatever the graph is, a coloring that [tabu_search_msc] returns has
    the keys of the initial coloring; it is the initial coloring, with its
    sum, or its value is strictly below the initial sum; and its colors are
    positive when the initial ones are. *)
Theorem result_is_input_or_strictly_better (g : Graph)
    (initial_coloring coloring : gmap Z Z) (config : option TabuSearchConfig)
    (value : Z) :
  tabu_search_msc set_iter g initial_coloring config = Ok (coloring, value) →
  dom coloring = dom initial_coloring
  ∧ ((coloring = initial_coloring ∧ value = sum_values initial_coloring)
     ∨ value < sum_values initial_coloring)
  ∧ (positive_colors initial_coloring → positive_colors coloring).
Proof.
  unfold tabu_search_msc. intros Hrun.
  apply bind_Ok in Hrun as (st & Hloop & [= <- <-]).
  apply (tabu_loop_invariant set_iter
           (λ st,
              (dom (current_coloring st) = dom initial_coloring
               ∧ dom (best_coloring st) = dom initial_coloring)
              ∧ ((best_coloring st = initial_coloring
                  ∧ best_value st = sum_values initial_coloring)
                 ∨ best_value st < sum_values initial_coloring)
              ∧ (positive_colors initial_coloring →
                 positive_colors (current_coloring st)
                 ∧ positive_colors (best_coloring st))))
    in Hloop as ([_ Hdom] & Hbetter & Hpos).
  - split; [done|]. split; [done|]. intros Hp. by apply Hpos.
  - intros s s' ([Hd1 Hd2] & Hbetter & Hpos) Hiter.
    pose proof (iterate_dom _ _ _ _ _ Hiter) as Hd.
    pose proof (λ Hp, iterate_positive _ _ _ _ (proj1 (Hpos Hp)) Hiter) as Hp'.
    apply iterate_Some in Hiter as (v & a & b & nv & _ & _ & ->).
    cbn [current_coloring best_coloring best_value] in *.
    split; [|split].
    + split; [congruence|]. case_bool_decide; congruence.
    + case_bool_decide; [right|done]. destruct Hbetter as [[_ Heq]|?]; lia.
    + intros Hp. specialize (Hp' Hp). split; [done|].
      case_bool_decide; [done|]. by apply Hpos.
  - split; [done|]. split; [by left|]. by intros Hp.
Qed.

(** *** How many passes a run makes *)



End tabu_search_more.

(** ** The tabu search: missing colors *)

Section tabu_search_errors.
Context (set_iter : gset Z → list Z).

Lemma any_holds_cases (coloring : gmap Z Z) (new_color : Z) (us : list Z) :
  (∃ b, any_holds coloring new_color us = Ok b)
  ∨ raises_missing coloring (any_holds coloring new_color us).
Proof.
  induction us as [|u us IH]; [left; by eexists|].
  cbn [any_holds]. unfold getitem.
  destruct (coloring !! u) as [c|] eqn:Hu; cbn [mbind outcome_bind].
  - destruct (decide (c = new_color)); [left; by eexists|done].
  - right. by exists u.
Qed.

Lemma scan_colors_cases (g : Graph) (st : search_state) (it : Z)
    (v current_color : Z) (colors : list Z) (best_move : best_move_t) :
  (∃ best_move',
     scan_colors set_iter g st it v current_color colors best_move
     = Ok best_move')
  ∨ raises_missing (current_coloring st)
      (scan_colors set_iter g st it v current_color colors best_move).
Proof.
  revert best_move. induction colors as [|c colors IH]; intros bm.
  { left. by eexists. }
  cbn [scan_colors]. unfold candidate.
  destruct (decide (c = current_color)); cbn [mbind outcome_bind]; [apply IH|].
  destruct (any_holds_cases (current_coloring st) c (set_iter (neighbors g v)))
    as [[b ->]|(k & -> & Hk)]; cbn [mbind outcome_bind].
  - destruct b; cbn [mbind outcome_bind]; [apply IH|].
    destruct (_ && _); cbn [mbind outcome_bind]; apply IH.
  - right. by exists k.
Qed.

Lemma scan_vertices_missing (g : Graph) (st : search_state) (it : Z)
    (vertices : list Z) (best_move : best_move_t) (v : Z) :
  v ∈ vertices → current_coloring st !! v = None →
  raises_missing (current_coloring st)
    (scan_vertices set_iter g st it vertices best_move).
Proof.
  intros Hin Hv. revert best_move.
  induction vertices as [|v' vertices IH]; intros bm.
  { by apply elem_of_nil in Hin. }
  cbn [scan_vertices]. unfold getitem.
  destruct (current_coloring st !! v') as [cc|] eqn:Hv';
    cbn [mbind outcome_bind]; [|by exists v'].
  destruct (scan_colors_cases g st it v' cc (range 1 (max_color st + 2)) bm)
    as [[bm1 ->]|(k & -> & Hk)]; cbn [mbind outcome_bind]; [|by exists k].
  apply IH. apply elem_of_cons in Hin as [->|Hin]; [congruence|done].
Qed.

(** When the loop is entered ([max_iterations] and [max_no_improve]
    positive) and the initial coloring leaves a vertex of [range(n)]
    without a color, [tabu_search_msc] raises a [KeyError], on a key that
    the initial coloring does not have; nothing is returned. *)
Theorem partial_coloring_raises_KeyError (g : Graph)
    (initial_coloring : gmap Z Z) (config : option TabuSearchConfig) (v : Z) :
  0 ≤ v < n g → initial_coloring !! v = None →
  0 < max_iterations (default default_config config) →
  0 < max_no_improve (default default_config config) →
  ∃ key,
    tabu_search_msc set_iter g initial_coloring config = Raise (KeyError key)
    ∧ initial_coloring !! key = None.
Proof.
  intros Hv Hnone Hmax Hstall. unfold tabu_search_msc.
  set (cfg := default default_config config) in *.
  destruct (Z.to_nat (max_iterations cfg)) as [|fuel] eqn:Hfuel; [lia|].
  cbn [tabu_loop]. unfold loop_cond.
  cbn [iteration iterations_without_improve initial_state].
  rewrite !bool_decide_eq_true_2 by done. cbn [andb]. unfold iterate.
  cbv zeta.
  destruct (scan_vertices_missing g (initial_state initial_coloring)
              (iteration (initial_state initial_coloring) + 1)
              (range 0 (n g)) None v) as (key & Hraise & Hkey).
  { by apply elem_of_range. }
  { done. }
  rewrite Hraise. cbn [mbind outcome_bind]. by exists key.
Qed.

End tabu_search_errors.

(** ** The tabu search: the [break] of line 91 *)

Section tabu_search_break.
Context (set_iter : gset Z → list Z).
Hypothesis set_iter_perm : ∀ X, set_iter X ≡ₚ elements X.

Lemma any_holds_true (coloring : gmap Z Z) (new_color : Z) (us : list Z) :
  any_holds coloring new_color us = Ok true →
  ∃ u, u ∈ us ∧ coloring !! u = Some new_color.
Proof.
  induction us as [|u us IH]; [done|].
  cbn [any_holds]. intros Hrun. apply bind_Ok in Hrun as (c & Hc & Hrun).
  apply getitem_Ok in Hc. destruct (decide (c = new_color)) as [->|].
  - exists u. split; [left|done].
  - destruct (IH Hrun) as (u' & Hin & Hu'). exists u'. split; [by right|done].
Qed.

Lemma iterate_max_color_ok (config : TabuSearchConfig) (g : Graph)
    (st st' : search_state) :
  max_color_ok st →
  iterate set_iter config g st = Ok (Some st') →
  max_color_ok st'.
Proof.
  intros (Hcol & Htabu & Hit) Hrun.
  apply iterate_Some in Hrun as (v & a & b & nv & Ha & _ & ->).
  unfold max_color_ok. cbn [current_coloring tabu max_color iteration].
  split; [|split; [|lia]].
  - intros v' c' Hv'. apply lookup_insert_Some in Hv' as [[_ <-]|[_ Hv']];
      [lia|]. specialize (Hcol v' c' Hv'). lia.
  - intros v' c' x Hx. apply lookup_insert_Some in Hx as [[[= <- <-] _]|[_ Hx]].
    + specialize (Hcol v a Ha). lia.
    + specialize (Htabu v' c' x Hx). lia.
Qed.

(** The color [max_color + 1] is always admissible for vertex 0. *)
Lemma fresh_color_passes (g : Graph) (st : search_state) (a : Z) :
  graph_wf g → total_coloring g (current_coloring st) →
  max_color_ok st → 0 ≤ max_color st →
  current_coloring st !! 0 = Some a →
  ∃ new_value,
    candidate set_iter g st (iteration st + 1) 0 a (max_color st + 1)
    = Ok (Some new_value).
Proof.
  intros Hwf Htot (Hcol & Htabu & Hit) Hmc Ha. unfold candidate.
  pose proof (Hcol 0 a Ha).
  destruct (decide (max_color st + 1 = a)); [lia|].
  destruct (any_holds_returns (current_coloring st) (max_color st + 1)
              (set_iter (neighbors g 0))) as [b Hb].
  { intros u Hu. rewrite set_iter_perm, elem_of_elements in Hu.
    apply Htot. by apply (wf_in_range g Hwf 0 u). }
  rewrite Hb. cbn [mbind outcome_bind]. destruct b.
  { apply any_holds_true in Hb as (u & _ & Hu). specialize (Hcol u _ Hu). lia. }
  destruct (tabu st !! (0, max_color st + 1)) as [x|] eqn:Hx.
  { specialize (Htabu _ _ _ Hx). lia. }
  cbn [default from_option id]. rewrite bool_decide_eq_false_2 by lia.
  by eexists.
Qed.

(** On a graph with at least one vertex that satisfies the graph model's
    invariants, started from a total coloring with positive colors, every
    pass of a run applies a move: the [break] for want of an admissible
    move is never taken (the color [max_color + 1] is free for every
    vertex and never tabu). *)
Theorem a_pass_always_applies_a_move (config : TabuSearchConfig) (g : Graph)
    (initial_coloring : gmap Z Z) (st : search_state) :
  graph_wf g → 0 < n g →
  total_coloring g initial_coloring → positive_colors initial_coloring →
  rtc (step set_iter config g) (initial_state initial_coloring) st →
  ∃ st', iterate set_iter config g st = Ok (Some st').
Proof.
  intros Hwf Hn Htot Hpos Hrun.
  destruct (Htot 0) as [a0 Ha0]; [lia|].
  apply (run_invariant set_iter
           (λ s, total_coloring g (current_coloring s)
                 ∧ max_color_ok s ∧ 0 ≤ max_color s)) in Hrun
    as (Htot' & Hok & Hmc).
  - destruct (iterate_returns_wf set_iter set_iter_perm config g st Hwf Htot')
      as [[st'|] Hiter]; [by exists st'|exfalso].
    destruct (Htot' 0) as [a Ha]; [lia|].
    destruct (fresh_color_passes g st a Hwf Htot' Hok Hmc Ha) as [nv Hnv].
    apply (break_means_no_move set_iter config g st Hiter 0 a
             (max_color st + 1) nv); [lia|lia|done|done].
  - intros s s' (Ht & Hok & Hmc) Hiter.
    split; [by eapply iterate_total|]. split; [by eapply iterate_max_color_ok|].
    apply iterate_Some in Hiter as (v & a & b & nv & _ & _ & ->).
    cbn [max_color]. lia.
  - split; [done|]. split.
    + unfold max_color_ok. cbn [current_coloring tabu max_color iteration
                                 initial_state].
      split; [apply max_values_bound|]. split; [|lia].
      intros v c x Hx. by rewrite lookup_empty in Hx.
    + cbn [max_color initial_state].
      pose proof (max_values_bound initial_coloring 0 a0 Ha0).
      specialize (Hpos 0 a0 Ha0). lia.
Qed.

End tabu_search_break.

(** ** The experiment of main.py *)

Section run_experiment_facts.
Context (set_iter : gset Z → list Z) `{RandomSource} (perf_counter : nat → float).
Hypothesis set_iter_perm : ∀ X, set_iter X ≡ₚ elements X.




(** With [p] out of range, [run_experiment] on at least one graph raises
    the [ValueError] of the generator before any result exists, and
    [save_experiment_artifacts] is not reached; on no graph
    ([num_graphs ≤ 0]) the bad [p] goes unnoticed and the call hands over
    an empty list and no example. *)
Theorem run_experiment_with_p_out_of_range (entropy : nat → rng_state)
    (num_graphs vertex_count : Z) (p : float) (base_seed : option Z) :
  in_unit_interval p = false →
  (0 < num_graphs →
   run_experiment set_iter perf_counter entropy num_graphs vertex_count p
     base_seed = Raise (ValueError "p must be in [0, 1]"))
  ∧ (num_graphs ≤ 0 →
     run_experiment set_iter perf_counter entropy num_graphs vertex_count p
       base_seed = Ok ([], None)).
Proof.
  intros Hp. unfold run_experiment.
  destruct (generate_random_graphs_bad_p entropy num_graphs vertex_count p
              base_seed Hp) as [Hraise Hnone].
  split; intros Hn.
  - by rewrite Hraise.
  - by rewrite Hnone.
Qed.

End run_experiment_facts.

(** ** The metrics file of evaluation.py and web/app.py *)

Lemma no_line_break_app (s1 s2 : string) :
  no_line_break (s1 +:+ s2) = no_line_break s1 && no_line_break s2.
Proof.
  induction s1 as [|c s1 IH]; [done|].
  change (String c s1 +:+ s2) with (String c (s1 +:+ s2)).
  cbn [no_line_break]. rewrite IH. by rewrite !andb_assoc.
Qed.

Lemma pretty_N_go_no_line_break (x : N) (s : string) :
  no_line_break s = true → no_line_break (pretty_N_go x s) = true.
Proof.
  revert s. induction (N.lt_wf_0 x) as [x _ IH]; intros s Hs.
  destruct (decide (x = 0)%N) as [->|Hx]; [by rewrite pretty_N_go_0|].
  rewrite pretty_N_go_step by lia. apply IH; [apply N.div_lt; lia|].
  cbn [no_line_break]. rewrite Hs, andb_true_r. unfold pretty_N_char.
  by repeat case_match.
Qed.

Lemma pretty_Z_no_line_break (z : Z) : no_line_break (pretty z) = true.
Proof.
  assert (∀ x : positive, no_line_break (pretty x) = true) as Hpos.
  { intros x. unfold pretty, pretty_positive, pretty, pretty_N.
    case_decide; [done|]. by apply pretty_N_go_no_line_break. }
  destruct z as [|x|x]; [done|apply Hpos|].
  unfold pretty, pretty_Z. rewrite no_line_break_app. by rewrite Hpos.
Qed.

(** A text without line feed and carriage return is read as one line. *)
Lemma text_lines_one_line (s : string) :
  no_line_break s = true → s ≠ "" → text_lines s = [s].
Proof.
  induction s as [|c s IH]; [done|]. cbn [no_line_break text_lines].
  intros Hs _. apply andb_true_iff in Hs as [Hc Hs].
  apply andb_true_iff in Hc as [Hlf Hcr].
  apply negb_true_iff, bool_decide_eq_false in Hlf, Hcr.
  rewrite !decide_False by done.
  destruct s as [|c' s']; [done|]. by rewrite IH.
Qed.

Section metrics_csv_facts.
Context `{PythonText}.

Lemma csv_content_no_line_break (results : list ExperimentResult) :
  (∀ x, no_line_break (format_6f x) = true) →
  no_line_break (csv_content results) = true.
Proof.
  intros Hfmt. unfold csv_content. rewrite no_line_break_app.
  apply andb_true_iff. split; [done|].
  induction results as [|r results IH]; [done|].
  cbn [fmap list_fmap String.concat].
  destruct (csv_row <$> results) as [|row rows] eqn:Hrows.
  - unfold csv_row.
    by rewrite !no_line_break_app, !pretty_Z_no_line_break, !Hfmt.
  - rewrite !no_line_break_app. cbn [String.append]. rewrite IH.
    unfold csv_row.
    by rewrite !no_line_break_app, !pretty_Z_no_line_break, !Hfmt.
Qed.

(** The metrics file does not survive the round trip. The code writes a
    backslash and an [n] where a line feed is meant, so the file that
    [save_experiment_artifacts] writes for a non-empty list of results is
    a single line; [load_metrics] takes that line for the header and
    returns the empty list, whatever the results were. *)
Theorem saved_metrics_load_as_empty (results : list ExperimentResult)
    (file : option string) :
  (∀ x, no_line_break (format_6f x) = true) →
  results ≠ [] →
  text_lines (csv_content results) = [csv_content results]
  ∧ load_metrics (write_metrics_csv true results file) = Some [].
Proof.
  intros Hfmt Hne.
  assert (text_lines (csv_content results) = [csv_content results]) as Hone.
  { apply text_lines_one_line; [by apply csv_content_no_line_break|done]. }
  split; [done|]. destruct results as [|r results]; [done|].
  cbn [write_metrics_csv load_metrics]. by rewrite Hone.
Qed.

End metrics_csv_facts.

Lemma saved_metrics_load_as_empty_witness :
  (∀ x, no_line_break (format_6f (PythonText := plain_text) x) = true)
  ∧ [one_result] ≠ []
  ∧ text_lines (csv_content (H := plain_text) [one_result])
    = [csv_content (H := plain_text) [one_result]]
  ∧ load_metrics (H := plain_text)
      (write_metrics_csv (H := plain_text) true [one_result] None)
    = Some [].
Proof.
  assert (∀ x, no_line_break (format_6f (PythonText := plain_text) x) = true)
    as Hfmt by (intros x; reflexivity).
  assert ([one_result] ≠ []) as Hne by discriminate.
  split; [exact Hfmt|]. split; [exact Hne|].
  exact (saved_metrics_load_as_empty (H := plain_text) [one_result] None
           Hfmt Hne).
Defined.

(** ** The example graph that is drawn *)

Section plot_example_graph_facts.
Context (set_iter : gset Z → list Z).
Hypothesis set_iter_perm : ∀ X, set_iter X ≡ₚ elements X.

Lemma elem_of_plot_edges (g : Graph) (u v : Z) :
  (u, v) ∈ plot_edges set_iter g ↔
  (0 ≤ u < v) ∧ v < Z.min (n g) 40 ∧ v ∈ neighbors g u.
Proof.
  unfold plot_edges, plot_nodes. rewrite list_elem_of_bind. split.
  - intros (u' & Hv & Hu).
    apply list_elem_of_fmap in Hv as (v' & [= -> ->] & Hv).
    apply list_elem_of_filter in Hv as [[Hin Hlt] Hv].
    rewrite set_iter_perm, elem_of_elements in Hv.
    apply elem_of_range in Hu, Hin. repeat split; [lia..|done].
  - intros (Huv & Hv & Hnb). exists u. split; [|apply elem_of_range; lia].
    apply list_elem_of_fmap. exists v. split; [done|].
    apply list_elem_of_filter. split; [split; [apply elem_of_range|]; lia|].
    by rewrite set_iter_perm, elem_of_elements.
Qed.

(** [_plot_example_graph] draws at most 40 nodes, the vertices
    [0..min(n,40)-1]. The edges it adds are, each once and as [(u, v)] with
    [u < v], the pairs of drawn nodes such that [v] is a neighbor of [u].
    With a feasible coloring the two ends of a drawn edge get different
    node colors. *)
Theorem plotted_subgraph (g : Graph) (coloring : gmap Z Z) :
  (length (plot_nodes g) ≤ 40)%nat
  ∧ (∀ v, v ∈ plot_nodes g ↔ 0 ≤ v < Z.min (n g) 40)
  ∧ NoDup (plot_edges set_iter g)
  ∧ (∀ u v, (u, v) ∈ plot_edges set_iter g ↔
       (0 ≤ u < v) ∧ v < Z.min (n g) 40 ∧ v ∈ neighbors g u)
  ∧ (feasible g coloring →
     ∀ (i j : nat) u v cu cv,
       (u, v) ∈ plot_edges set_iter g →
       plot_nodes g !! i = Some u → plot_nodes g !! j = Some v →
       plot_node_colors g coloring !! i = Some cu →
       plot_node_colors g coloring !! j = Some cv →
       cu ≠ cv).
Proof.
  split; [|split; [|split; [|split]]].
  - unfold plot_nodes, range. rewrite length_seqZ. lia.
  - intros v. unfold plot_nodes. rewrite elem_of_range. lia.
  - unfold plot_edges. apply NoDup_bind; [| |apply NoDup_range].
    + intros u1 u2 [u v] _ _ H1 H2.
      apply list_elem_of_fmap in H1 as (? & [= -> ->] & _).
      by apply list_elem_of_fmap in H2 as (? & [= -> _] & _).
    + intros u _. apply NoDup_fmap_2; [by intros v1 v2 [= ->]|].
      apply NoDup_filter. rewrite set_iter_perm. apply NoDup_elements.
  - apply elem_of_plot_edges.
  - intros Hfeas i j u v cu cv Hedge Hi Hj Hcu Hcv.
    apply elem_of_plot_edges in Hedge as (_ & _ & Hnb).
    destruct (Hfeas u v Hnb) as (a & b & Ha & Hb & Hab).
    unfold plot_node_colors in Hcu, Hcv.
    rewrite list_lookup_fmap in Hcu, Hcv. rewrite Hi in Hcu. rewrite Hj in Hcv.
    simpl in Hcu, Hcv. rewrite Ha in Hcu. rewrite Hb in Hcv.
    simpl in Hcu, Hcv. congruence.
Qed.

End plot_example_graph_facts.

(** ** The tabu search: what it can raise, and the empty vertex range *)

Section tabu_search_outcomes.
Context (set_iter : gset Z → list Z).

Lemma scan_vertices_cases (g : Graph) (st : search_state) (it : Z)
    (vertices : list Z) (best_move : best_move_t) :
  (∃ best_move',
     scan_vertices set_iter g st it vertices best_move = Ok best_move')
  ∨ raises_missing (current_coloring st)
      (scan_vertices set_iter g st it vertices best_move).
Proof.
  revert best_move. induction vertices as [|v vertices IH]; intros bm.
  { left. by eexists. }
  cbn [scan_vertices]. unfold getitem.
  destruct (current_coloring st !! v) as [cc|] eqn:Hv;
    cbn [mbind outcome_bind]; [|right; by exists v].
  destruct (scan_colors_cases set_iter g st it v cc
              (range 1 (max_color st + 2)) bm)
    as [[bm1 ->]|(k & -> & Hk)]; cbn [mbind outcome_bind]; [apply IH|].
  right. by exists k.
Qed.

Lemma iterate_cases (config : TabuSearchConfig) (g : Graph)
    (st : search_state) :
  (∃ r, iterate set_iter config g st = Ok r)
  ∨ raises_missing (current_coloring st) (iterate set_iter config g st).
Proof.
  unfold iterate.
  destruct (scan_vertices_cases g st (iteration st + 1) (range 0 (n g)) None)
    as [[bm Hscan]|(k & Hscan & Hk)]; rewrite Hscan; cbn [mbind outcome_bind].
  - apply scan_vertices_chosen in Hscan; [|done].
    destruct bm as [[[v c] val]|]; [|left; by eexists].
    destruct Hscan as (a & Ha & _). unfold apply_move, getitem. rewrite Ha.
    cbn [mbind outcome_bind]. left. by eexists.
  - right. by exists k.
Qed.

Lemma tabu_loop_cases (config : TabuSearchConfig) (g : Graph)
    (fuel : nat) (st : search_state) :
  max_iterations config - iteration st ≤ Z.of_nat fuel →
  (∃ st', tabu_loop set_iter fuel config g st = Ok st')
  ∨ ∃ key, tabu_loop set_iter fuel config g st = Raise (KeyError key)
           ∧ key ∉ dom (current_coloring st).
Proof.
  revert st. induction fuel as [|fuel IH]; intros st Hfuel.
  - pose proof (tabu_loop_fuel set_iter config g 0 st Hfuel) as Hno.
    cbn [tabu_loop] in *. destruct (loop_cond config st); [done|].
    left. by eexists.
  - cbn [tabu_loop]. destruct (loop_cond config st); [|left; by eexists].
    destruct (iterate_cases config g st) as [[r Hiter]|(k & Hiter & Hk)];
      rewrite Hiter; cbn [mbind outcome_bind].
    + destruct r as [st1|]; [|left; by eexists].
      pose proof (iterate_dom _ _ _ _ _ Hiter) as Hdom.
      pose proof (iterate_iteration _ _ _ _ _ Hiter) as Hit.
      destruct (IH st1) as [?|(k & Hrun & Hk)]; [lia|by left|].
      right. exists k. by rewrite <- Hdom.
    + right. exists k. split; [done|]. by apply not_elem_of_dom.
Qed.

(** For every graph, coloring and configuration, [tabu_search_msc]
    terminates, and either returns or raises a [KeyError] for a key that
    the initial coloring does not have; it raises nothing else. *)
Theorem tabu_search_msc_returns_or_KeyError (g : Graph)
    (initial_coloring : gmap Z Z) (config : option TabuSearchConfig) :
  (∃ coloring value,
     tabu_search_msc set_iter g initial_coloring config = Ok (coloring, value))
  ∨ (∃ key,
       tabu_search_msc set_iter g initial_coloring config
       = Raise (KeyError key)
       ∧ initial_coloring !! key = None).
Proof.
  unfold tabu_search_msc.
  destruct (tabu_loop_cases (default default_config config) g
              (Z.to_nat (max_iterations (default default_config config)))
              (initial_state initial_coloring))
    as [[st ->]|(k & -> & Hk)]; cbn [mbind outcome_bind].
  - cbn [iteration initial_state]. lia.
  - left. by eexists _, _.
  - right. exists k. split; [done|]. by apply not_elem_of_dom.
Qed.

(** A graph without vertices ([n ≤ 0]): [greedy_msc] returns the empty
    coloring and 0, and [tabu_search_msc] finds no move and returns the
    initial coloring with its sum, whatever these are. *)
Theorem no_vertices_no_change (g : Graph) :
  n g ≤ 0 →
  greedy_msc g = Ok (∅, 0)
  ∧ (∀ initial_coloring config,
       tabu_search_msc set_iter g initial_coloring config
       = Ok (initial_coloring, sum_values initial_coloring)).
Proof.
  intros Hn.
  assert (range 0 (n g) = []) as Hrange by (unfold range; apply seqZ_nil; lia).
  split.
  - unfold greedy_msc, sorted_vertices. rewrite Hrange. done.
  - intros initial_coloring config. unfold tabu_search_msc.
    set (cfg := default default_config config).
    assert (∀ fuel, max_iterations cfg ≤ Z.of_nat fuel →
              tabu_loop set_iter fuel cfg g (initial_state initial_coloring)
              = Ok (initial_state initial_coloring)) as Hloop.
    { intros fuel Hfuel.
      destruct fuel as [|fuel]; cbn [tabu_loop];
        destruct (loop_cond cfg _) eqn:Hcond; try done.
      - apply andb_true_iff in Hcond as [Hc _].
        apply bool_decide_eq_true in Hc. cbn [iteration initial_state] in Hc.
        lia.
      - unfold iterate. by rewrite Hrange. }
    rewrite Hloop by lia. done.
Qed.

End tabu_search_outcomes.

(** ** The further properties at concrete inputs *)

Lemma positive_colorsb_sound (coloring : gmap Z Z) :
  positive_colorsb coloring = true → positive_colors coloring.
Proof.
  intros Hb v c Hv. apply bool_decide_eq_true in Hb. by apply (Hb v c).
Qed.

Lemma generated_graph_is_well_formed_witness :
  generate_erdos_renyi_graph (H := alternating_source) 0%nat 3 0.5%float
    (Some 0) = Ok path3
  ∧ n path3 = 3
  ∧ dom (adj path3) = list_to_set (range 0 3)
  ∧ graph_wf path3.
Proof.
  assert (generate_erdos_renyi_graph (H := alternating_source) 0%nat 3
            0.5%float (Some 0) = Ok path3) as Hgen by (vm_compute; reflexivity).
  split; [exact Hgen|].
  exact (generated_graph_is_well_formed (H := alternating_source) 0%nat 3
           0.5%float (Some 0) path3 Hgen).
Defined.

Lemma generated_edges_follow_draws_witness :
  generate_erdos_renyi_graph (H := alternating_source) 0%nat 3 0.5%float
    (Some 0) = Ok path3
  ∧ NoDup (vertex_pairs 3)
  ∧ (∀ u v, (u, v) ∈ vertex_pairs 3 ↔ 0 ≤ u < v ∧ v < 3)
  ∧ (∀ w x, x ∈ neighbors path3 w ↔
       ∃ (k : nat) u v,
         vertex_pairs 3 !! k = Some (u, v)
         ∧ PrimFloat.ltb
             (nth_draw (H := alternating_source) k
                (from_option (Random (RandomSource := alternating_source))
                   0%nat (Some 0)))
             0.5%float = true
         ∧ ((w = u ∧ x = v) ∨ (w = v ∧ x = u))).
Proof.
  assert (generate_erdos_renyi_graph (H := alternating_source) 0%nat 3
            0.5%float (Some 0) = Ok path3) as Hgen by (vm_compute; reflexivity).
  split; [exact Hgen|].
  exact (generated_edges_follow_draws (H := alternating_source) 0%nat 3
           0.5%float (Some 0) path3 Hgen).
Defined.

Lemma batch_has_count_well_formed_graphs_witness :
  in_unit_interval 0.5%float = true
  ∧ ∃ gs,
      generate_random_graphs (H := alternating_source) (λ _, 0%nat) 2 3
        0.5%float (Some 0) = Ok gs
      ∧ length gs = Z.to_nat 2
      ∧ (∀ g, g ∈ gs → n g = 3 ∧ graph_wf g).
Proof.
  assert (in_unit_interval 0.5%float = true) as Hp by reflexivity.
  split; [exact Hp|].
  exact (batch_has_count_well_formed_graphs (H := alternating_source)
           (λ _, 0%nat) 2 3 0.5%float (Some 0) Hp).
Defined.

Lemma batch_with_p_out_of_range_witness :
  in_unit_interval 1.5%float = false
  ∧ (0 < 2 →
     generate_random_graphs (H := alternating_source) (λ _, 0%nat) 2 3
       1.5%float None
     = Raise (ValueError "p must be in [0, 1]"))
  ∧ (2 ≤ 0 →
     generate_random_graphs (H := alternating_source) (λ _, 0%nat) 2 3
       1.5%float None = Ok []).
Proof.
  assert (in_unit_interval 1.5%float = false) as Hp by reflexivity.
  split; [exact Hp|].
  exact (batch_with_p_out_of_range (H := alternating_source)
           (λ _, 0%nat) 2 3 1.5%float None Hp).
Defined.

Lemma applied_move_is_first_best_witness :
  let st := initial_state rising_coloring in
  let st' := after_passes elements default_config path4 1 st in
  iterate elements default_config path4 st = Ok (Some st')
  ∧ ∃ v old_color new_color new_value,
      current_coloring st !! v = Some old_color
      ∧ current_coloring st' = <[v := new_color]> (current_coloring st)
      ∧ current_value st' = new_value
      ∧ (0 ≤ v < n path4) ∧ (1 ≤ new_color ≤ max_color st + 1)
      ∧ new_color ≠ old_color
      ∧ candidate elements path4 st (iteration st + 1) v old_color new_color
        = Ok (Some new_value)
      ∧ (∀ v' old_color' new_color' new_value',
           0 ≤ v' < n path4 → 1 ≤ new_color' ≤ max_color st + 1 →
           current_coloring st !! v' = Some old_color' →
           candidate elements path4 st (iteration st + 1) v' old_color'
             new_color' = Ok (Some new_value') →
           new_value ≤ new_value'
           ∧ (new_value' = new_value →
              v < v' ∨ (v = v' ∧ new_color ≤ new_color'))).
Proof.
  intros st st'.
  assert (iterate elements default_config path4 st = Ok (Some st')) as Hiter
    by (vm_compute; reflexivity).
  split; [exact Hiter|].
  exact (applied_move_is_first_best elements default_config path4 st st' Hiter).
Defined.

Lemma result_is_input_or_strictly_better_witness :
  tabu_search_msc elements path4 rising_coloring None = Ok (path4_result, 6)
  ∧ dom path4_result = dom rising_coloring
  ∧ ((path4_result = rising_coloring ∧ 6 = sum_values rising_coloring)
     ∨ 6 < sum_values rising_coloring)
  ∧ (positive_colors rising_coloring → positive_colors path4_result).
Proof.
  assert (tabu_search_msc elements path4 rising_coloring None
          = Ok (path4_result, 6)) as Hrun by (vm_compute; reflexivity).
  split; [exact Hrun|].
  exact (result_is_input_or_strictly_better elements path4 rising_coloring
           path4_result None 6 Hrun).
Defined.


Lemma partial_coloring_raises_KeyError_witness :
  0 ≤ 3 < n path4 ∧ partial_coloring !! 3 = None
  ∧ 0 < max_iterations (default default_config None)
  ∧ 0 < max_no_improve (default default_config None)
  ∧ ∃ key,
      tabu_search_msc elements path4 partial_coloring None
      = Raise (KeyError key)
      ∧ partial_coloring !! key = None.
Proof.
  assert (0 ≤ 3 < n path4) as Hv by (split; [discriminate|reflexivity]).
  assert (partial_coloring !! 3 = None) as Hnone by reflexivity.
  assert (0 < max_iterations (default default_config None)) as Hmax
    by reflexivity.
  assert (0 < max_no_improve (default default_config None)) as Hstall
    by reflexivity.
  split; [exact Hv|]. split; [exact Hnone|].
  split; [exact Hmax|]. split; [exact Hstall|].
  exact (partial_coloring_raises_KeyError elements path4 partial_coloring None
           3 Hv Hnone Hmax Hstall).
Defined.

Lemma a_pass_always_applies_a_move_witness :
  let st0 := initial_state rising_coloring in
  let st1 := after_passes elements default_config path4 1 st0 in
  graph_wf path4 ∧ 0 < n path4
  ∧ total_coloring path4 rising_coloring ∧ positive_colors rising_coloring
  ∧ rtc (step elements default_config path4) st0 st1
  ∧ ∃ st', iterate elements default_config path4 st1 = Ok (Some st').
Proof.
  intros st0 st1.
  assert (0 < n path4) as Hn by reflexivity.
  assert (positive_colors rising_coloring) as Hpos
    by (apply positive_colorsb_sound; vm_compute; reflexivity).
  assert (rtc (step elements default_config path4) st0 st1) as Hrun
    by (eapply rtc_l; [split; vm_compute; reflexivity|apply rtc_refl]).
  split; [exact path4_wf|]. split; [exact Hn|].
  split; [exact rising_coloring_total|]. split; [exact Hpos|].
  split; [exact Hrun|].
  exact (a_pass_always_applies_a_move elements elements_perm default_config
           path4 rising_coloring st1 path4_wf Hn rising_coloring_total Hpos
           Hrun).
Defined.


Lemma plotted_subgraph_witness :
  (length (plot_nodes path4) ≤ 40)%nat
  ∧ (∀ v, v ∈ plot_nodes path4 ↔ 0 ≤ v < Z.min (n path4) 40)
  ∧ NoDup (plot_edges elements path4)
  ∧ (∀ u v, (u, v) ∈ plot_edges elements path4 ↔
       (0 ≤ u < v) ∧ v < Z.min (n path4) 40 ∧ v ∈ neighbors path4 u)
  ∧ (feasible path4 rising_coloring →
     ∀ (i j : nat) u v cu cv,
       (u, v) ∈ plot_edges elements path4 →
       plot_nodes path4 !! i = Some u → plot_nodes path4 !! j = Some v →
       plot_node_colors path4 rising_coloring !! i = Some cu →
       plot_node_colors path4 rising_coloring !! j = Some cv →
       cu ≠ cv).
Proof.
  exact (plotted_subgraph elements elements_perm path4 rising_coloring).
Defined.

Lemma no_vertices_no_change_witness :
  n empty0 ≤ 0
  ∧ greedy_msc empty0 = Ok (∅, 0)
  ∧ (∀ initial_coloring config,
       tabu_search_msc elements empty0 initial_coloring config
       = Ok (initial_coloring, sum_values initial_coloring)).
Proof.
  assert (n empty0 ≤ 0) as Hn by discriminate.
  split; [exact Hn|].
  exact (no_vertices_no_change elements empty0 Hn).
Defined.

Lemma run_experiment_with_p_out_of_range_witness :
  in_unit_interval 1.5%float = false
  ∧ (0 < 2 →
     run_experiment elements (H := alternating_source) (λ _, 0%float)
       (λ _, 0%nat) 2 3 1.5%float (Some 0)
     = Raise (ValueError "p must be in [0, 1]"))
  ∧ (2 ≤ 0 →
     run_experiment elements (H := alternating_source) (λ _, 0%float)
       (λ _, 0%nat) 2 3 1.5%float (Some 0) = Ok ([], None)).
Proof.
  assert (in_unit_interval 1.5%float = false) as Hp by reflexivity.
  split; [exact Hp|].
  exact (run_experiment_with_p_out_of_range elements (H := alternating_source)
           (λ _, 0%float) (λ _, 0%nat) 2 3 1.5%float (Some 0) Hp).
Defined.
